(** * f1champstats: championship calculator and scenario explorer

    A shallow embedding of [js/engine.js] and [js/scenarios.js].

    JavaScript numbers are integers here ([Z]): every quantity the engine
    handles is a points total, a win or podium count, or a finishing
    position.  [null] and [undefined] are [None].  Strings are [string]. *)

From Stdlib Require Import Ascii String.
From stdpp Require Import base numbers list list_numbers sorting option
  strings pretty gmap.

Local Open Scope string_scope.
Local Open Scope list_scope.
Local Open Scope Z_scope.

(** ** Data model *)

(** An entry of [BASE_DRIVERS]. *)
Record Driver := {
  id : string;
  name : string;
  team : string;
  points : Z;
  wins : Z;
  podiums : Z;
  isContender : bool;
}.

(** The object returned by [calculateDriverResult]: the spread
    [...baseDriver] copies every field of the driver ([base]), and the five
    computed fields are added to the copy. *)
Record EnrichedResult := {
  base : Driver;
  finishingPos : option Z;
  racePoints : Z;
  finalPoints : Z;
  finalWins : Z;
  finalPodiums : Z;
}.

(** The object returned by [determineChampion].  [champion] is [None] when
    [sortedResults[0]] is [undefined]. *)
Record Outcome := {
  champion : option EnrichedResult;
  second : option EnrichedResult;
  isTie : bool;
}.

(** One entry of [winningScenarios]. *)
Record Scenario := {
  norrisPos : Z;
  verstappenPos : Z;
  piastriPos : Z;
}.

(** One entry of the array returned by [groupScenarios]. *)
Record ScenarioGroup := {
  position : string;
  description : string;
}.

Global Instance Driver_eq_dec : EqDecision Driver.
Proof. solve_decision. Defined.
Global Instance EnrichedResult_eq_dec : EqDecision EnrichedResult.
Proof. solve_decision. Defined.
Global Instance Scenario_eq_dec : EqDecision Scenario.
Proof. solve_decision. Defined.
Global Instance ScenarioGroup_eq_dec : EqDecision ScenarioGroup.
Proof. solve_decision. Defined.

(** ** What [data.js] and the platform provide *)

(** Modelled from the spec: the table [RACE_POINTS] of [data.js], which is
    not part of the sources at hand.  The spec gives it as
    {1:25, 2:18, 3:15, 4:12, 5:10, 6:8, 7:6, 8:4, 9:2, 10:1}. *)
Definition RACE_POINTS : gmap Z Z :=
  list_to_map
    [(1, 25); (2, 18); (3, 15); (4, 12); (5, 10);
     (6, 8); (7, 6); (8, 4); (9, 2); (10, 1)].

(** The roster [BASE_DRIVERS] of [data.js]: injected data. *)
Class Roster := BASE_DRIVERS : list Driver.

(** [String.prototype.localeCompare]: negative, zero or positive. *)
Class Collation := localeCompare : string → string → Z.

(** The platform promises that [localeCompare] is a consistent comparison.
    [lc_sep] adds that names which compare equal are the same name, as they
    are for names written in one normal form. *)
Class CollationLaws `{Collation} : Prop := {
  lc_refl s : localeCompare s s = 0;
  lc_antisym s1 s2 : localeCompare s1 s2 < 0 ↔ 0 < localeCompare s2 s1;
  lc_trans s1 s2 s3 :
    localeCompare s1 s2 ≤ 0 → localeCompare s2 s3 ≤ 0 →
    localeCompare s1 s3 ≤ 0;
  lc_sep s1 s2 : localeCompare s1 s2 = 0 → s1 = s2;
}.

(** ** engine.js *)

(** [RACE_POINTS[finishingPos]] is read only behind the gate [1..10], where
    the table has every key (see [RACE_POINTS_defined]); [!!!] stands for
    that read. *)
Definition calculateDriverResult (baseDriver : Driver)
    (finishingPos : option Z) : EnrichedResult :=
  let racePoints :=
    match finishingPos with
    | Some p => if (p <=? 10) && (p >=? 1) then RACE_POINTS !!! p else 0
    | None => 0
    end in
  let finalPoints := points baseDriver + racePoints in
  let finalWins :=
    wins baseDriver + (if decide (finishingPos = Some 1) then 1 else 0) in
  let finalPodiums :=
    podiums baseDriver +
    (match finishingPos with
     | Some p => if p <=? 3 then 1 else 0
     | None => 0
     end) in
  {| base := baseDriver;
     finishingPos := finishingPos;
     racePoints := racePoints;
     finalPoints := finalPoints;
     finalWins := finalWins;
     finalPodiums := finalPodiums |}.

(** The comparison function handed to [sort] in [sortStandings]. *)
Definition compareStandings `{Collation} (a b : EnrichedResult) : Z :=
  if negb (finalPoints b =? finalPoints a) then finalPoints b - finalPoints a
  else if negb (finalWins b =? finalWins a) then finalWins b - finalWins a
  else if negb (finalPodiums b =? finalPodiums a)
       then finalPodiums b - finalPodiums a
  else localeCompare (name (base a)) (name (base b)).

(** [Array.prototype.sort] is a stable sort: an element moves in front of
    another one only when the comparison function puts it strictly before.
    [array_insert x l] places [x], which preceded every element of [l]. *)
Fixpoint array_insert {A} (cmp : A → A → Z) (x : A) (l : list A) : list A :=
  match l with
  | [] => [x]
  | y :: l' =>
      if cmp x y <=? 0 then x :: y :: l' else y :: array_insert cmp x l'
  end.

Definition array_sort {A} (cmp : A → A → Z) (l : list A) : list A :=
  foldr (array_insert cmp) [] l.

Definition sortStandings `{Collation} (results : list EnrichedResult)
    : list EnrichedResult :=
  array_sort compareStandings results.

Definition determineChampion (sortedResults : list EnrichedResult)
    : Outcome :=
  let champion := sortedResults !! 0%nat in
  let second := sortedResults !! 1%nat in
  match second, champion with
  | Some s, Some c =>
      let isTie :=
        (finalPoints c =? finalPoints s) &&
        (finalWins c =? finalWins s) &&
        (finalPodiums c =? finalPodiums s) in
      {| champion := Some c; second := Some s; isTie := isTie |}
  | _, _ => {| champion := champion; second := None; isTie := false |}
  end.

(** ** scenarios.js *)

(** Code that can throw runs in [option]: [None] is an uncaught
    [TypeError].  A [for] loop whose counter runs from [lo] to [hi] threads
    the loop's state through its body, one step per value of the counter. *)
Fixpoint for_steps {S} (n : nat) (i : Z) (body : Z → S → option S) (s : S)
    : option S :=
  match n with
  | O => Some s
  | S n' => s' ← body i s; for_steps n' (i + 1) body s'
  end.

Definition for_upto {S} (lo hi : Z) (body : Z → S → option S) (s : S)
    : option S :=
  for_steps (Z.to_nat (hi + 1 - lo)) lo body s.

Section scenarios.
Context `{Collation} `{Roster}.

Definition contenders : list Driver :=
  filter (λ d, isContender d = true) BASE_DRIVERS.

(** The destructuring [const [norris, verstappen, piastri] = contenders]. *)
Definition norris : option Driver := contenders !! 0%nat.
Definition verstappen : option Driver := contenders !! 1%nat.
Definition piastri : option Driver := contenders !! 2%nat.

Definition MAX_POS : Z := 11.

(** [pos > 10 ? null : pos] *)
Definition finishOf (pos : Z) : option Z :=
  if pos >? 10 then None else Some pos.

(** The innermost body of the sweep, after the collision checks.  Reading
    a property of an [undefined] driver or champion throws. *)
Definition tryScenario (targetWinnerId : string) (posN posV posP : Z)
    (winningScenarios : list Scenario) : option (list Scenario) :=
  n ← norris;
  let resN := calculateDriverResult n (finishOf posN) in
  v ← verstappen;
  let resV := calculateDriverResult v (finishOf posV) in
  p ← piastri;
  let resP := calculateDriverResult p (finishOf posP) in
  let miniStandings := sortStandings [resN; resV; resP] in
  let o := determineChampion miniStandings in
  c ← champion o;
  if String.eqb (id (base c)) targetWinnerId && negb (isTie o)
  then Some (winningScenarios ++
               [{| norrisPos := posN; verstappenPos := posV;
                   piastriPos := posP |}])
  else Some winningScenarios.

(** [continue] leaves the loop's state as it is. *)
Definition findWinningScenarios (targetWinnerId : string)
    : option (list Scenario) :=
  for_upto 1 MAX_POS (λ posN winningScenarios,
    for_upto 1 MAX_POS (λ posV winningScenarios,
      if (posN <=? 10) && (posV <=? 10) && (posN =? posV)
      then Some winningScenarios
      else
        for_upto 1 MAX_POS (λ posP winningScenarios,
          if (posP <=? 10) && ((posN <=? 10) && (posN =? posP))
          then Some winningScenarios
          else if (posP <=? 10) && ((posV <=? 10) && (posV =? posP))
          then Some winningScenarios
          else tryScenario targetWinnerId posN posV posP winningScenarios)
        winningScenarios)
      winningScenarios)
    [].
End scenarios.

(** [sc[key]]: the three properties a scenario object has. *)
Definition scenario_get (sc : Scenario) (key : string) : option Z :=
  if String.eqb key "norrisPos" then Some (norrisPos sc)
  else if String.eqb key "verstappenPos" then Some (verstappenPos sc)
  else if String.eqb key "piastriPos" then Some (piastriPos sc)
  else None.

(** [c.toUpperCase()] on the letters a..z; other characters are kept. *)
Definition ascii_toUpperCase (c : ascii) : ascii :=
  let n := N_of_ascii c in
  if ((97 <=? n) && (n <=? 122))%N then ascii_of_N (n - 32) else c.

(** [id.charAt(0).toUpperCase() + id.slice(1)] *)
Definition capitalize (s : string) : string :=
  match s with
  | EmptyString => EmptyString
  | String c rest => String (ascii_toUpperCase c) rest
  end.

(** [v > 10 ? "No Points" : "P" + v], where [v] is a number, a property key
    that spells one, or [undefined] ([None]): the comparison with
    [undefined] is false. *)
Definition displayOf (v : option Z) : string :=
  match v with
  | Some z => if z >? 10 then "No Points" else "P" +:+ pretty z
  | None => "Pundefined"
  end.

(** The callback of the inner [otherIds.forEach]: [p < minPos[id]] is
    false when either side is [undefined]. *)
Definition tightenMinPos (sc : Scenario) (minPos : gmap string Z)
    (id : string) : gmap string Z :=
  let p := scenario_get sc (id +:+ "Pos") in
  match p with
  | Some p =>
      match minPos !! id with
      | Some m => if p <? m then <[id := p]> minPos else minPos
      | None => minPos
      end
  | None => minPos
  end.

(** The callback of [otherIds.map]. *)
Definition constraintOf (minPos : gmap string Z) (id : string) : string :=
  let mp := minPos !! id in
  let mpStr := displayOf mp in
  let name := capitalize id in
  name +:+ " finishes " +:+ mpStr +:+ " or lower".

Definition summarizeConstraints (scenarios : list Scenario)
    (otherIds : list string) : string :=
  let minPos : gmap string Z :=
    foldl (λ minPos id, <[id := 99]> minPos) ∅ otherIds in
  let minPos : gmap string Z :=
    foldl (λ minPos sc, foldl (tightenMinPos sc) minPos otherIds)
      minPos scenarios in
  let parts := constraintOf minPos <$> otherIds in
  String.concat " AND <br>" parts.

(** The comparison function [(a, b) => a - b] on property keys; [sort]
    reads a [NaN] result as 0. *)
Definition compareKeys (a b : option Z) : Z :=
  match a, b with
  | Some x, Some y => x - y
  | _, _ => 0
  end.

(** The callback of [scenarios.forEach] in [groupScenarios].  The keys of
    [byTargetPos] are the strings of the target's positions, or
    ["undefined"]; [option Z] stands for these strings. *)
Definition pushScenario (targetId : string)
    (byTargetPos : gmap (option Z) (list Scenario)) (sc : Scenario)
    : gmap (option Z) (list Scenario) :=
  let targetPos := scenario_get sc (targetId +:+ "Pos") in
  let byTargetPos :=
    match byTargetPos !! targetPos with
    | None => <[targetPos := []]> byTargetPos
    | Some _ => byTargetPos
    end in
  alter (λ l, l ++ [sc]) targetPos byTargetPos.

(** The keys are distinct, so the order in which [Object.keys] lists them
    does not show after the sort. *)
Definition groupScenarios (targetId : string) (scenarios : list Scenario)
    : list ScenarioGroup :=
  let byTargetPos := foldl (pushScenario targetId) ∅ scenarios in
  let positions := array_sort compareKeys (map_to_list byTargetPos).*1 in
  (λ pos,
    let scenariosForPos := byTargetPos !!! pos in
    let displayPos := displayOf pos in
    let otherIds :=
      filter (λ id, id ≠ targetId) ["norris"; "verstappen"; "piastri"] in
    let summary := summarizeConstraints scenariosForPos otherIds in
    {| position := displayPos; description := summary |}) <$> positions.

(** ** A sample roster and a code-point collation, to run the code on *)

Definition sampleNorris : Driver :=
  {| id := "norris"; name := "Lando Norris"; team := "McLaren";
     points := 408; wins := 7; podiums := 17; isContender := true |}.

Definition sampleVerstappen : Driver :=
  {| id := "verstappen"; name := "Max Verstappen"; team := "Red Bull";
     points := 396; wins := 7; podiums := 14; isContender := true |}.

Definition samplePiastri : Driver :=
  {| id := "piastri"; name := "Oscar Piastri"; team := "McLaren";
     points := 392; wins := 7; podiums := 15; isContender := true |}.

Definition sampleRussell : Driver :=
  {| id := "russell"; name := "George Russell"; team := "Mercedes";
     points := 309; wins := 2; podiums := 9; isContender := false |}.

Definition sampleRoster : Roster :=
  [sampleNorris; sampleVerstappen; samplePiastri; sampleRussell].

Definition sampleResults : list EnrichedResult :=
  [calculateDriverResult sampleNorris (Some 2);
   calculateDriverResult sampleVerstappen (Some 1);
   calculateDriverResult samplePiastri None].

(** The bucket of the spec's example, with Norris as the target. *)
Definition sampleBucket : list Scenario :=
  [ {| norrisPos := 1; verstappenPos := 4; piastriPos := 5 |};
    {| norrisPos := 1; verstappenPos := 5; piastriPos := 5 |};
    {| norrisPos := 1; verstappenPos := 4; piastriPos := 6 |} ].

Definition codePointCollation : Collation :=
  λ s1 s2,
    match String.compare s1 s2 with
    | Lt => -1
    | Eq => 0
    | Gt => 1
    end.

(** ** The vocabulary of the properties *)

(** The championship keys, in the words of the rules: [ahead a b] when [a]
    has more final points, or as many and more wins, or as many of both and
    more podiums; [level a b] when the three agree. *)
Definition ahead (a b : EnrichedResult) : Prop :=
  finalPoints b < finalPoints a
  ∨ (finalPoints a = finalPoints b ∧ finalWins b < finalWins a)
  ∨ (finalPoints a = finalPoints b ∧ finalWins a = finalWins b
     ∧ finalPodiums b < finalPodiums a).

Definition level (a b : EnrichedResult) : Prop :=
  finalPoints a = finalPoints b
  ∧ finalWins a = finalWins b
  ∧ finalPodiums a = finalPodiums b.

(** The order of the standings: points, wins and podiums descending, then
    the name ascending. *)
Definition ranksBefore `{Collation} (a b : EnrichedResult) : Prop :=
  ahead a b
  ∨ (level a b ∧ localeCompare (name (base a)) (name (base b)) < 0).

(** The combinations the sweep reaches past its collision checks, in the
    order it reaches them. *)
Definition sweep : list Scenario :=
  posN ← seqZ 1 11;
  posV ← seqZ 1 11;
  if (posN <=? 10) && (posV <=? 10) && (posN =? posV) then []
  else
    posP ← seqZ 1 11;
    if (posP <=? 10) && ((posN <=? 10) && (posN =? posP)) then []
    else if (posP <=? 10) && ((posV <=? 10) && (posV =? posP)) then []
    else [{| norrisPos := posN; verstappenPos := posV; piastriPos := posP |}].

Section scenario_vocabulary.
Context `{Collation} `{Roster}.

(** The three results of a scenario, ranked and classified. *)
Definition scenarioOutcome (sc : Scenario) : option Outcome :=
  n ← norris; v ← verstappen; p ← piastri;
  Some (determineChampion (sortStandings
    [calculateDriverResult n (finishOf (norrisPos sc));
     calculateDriverResult v (finishOf (verstappenPos sc));
     calculateDriverResult p (finishOf (piastriPos sc))])).

(** The target is champion of the scenario, and not in a tie. *)
Definition soleChampion (targetId : string) (sc : Scenario) : Prop :=
  ∃ o c, scenarioOutcome sc = Some o ∧ champion o = Some c
         ∧ id (base c) = targetId ∧ isTie o = false.

Definition winsTitle (targetId : string) (sc : Scenario) : bool :=
  match scenarioOutcome sc with
  | Some o =>
      match champion o with
      | Some c => String.eqb (id (base c)) targetId && negb (isTie o)
      | None => false
      end
  | None => false
  end.
End scenario_vocabulary.

(** Two contenders share a scoring position. *)
Definition scoringClash (sc : Scenario) : Prop :=
  (1 ≤ norrisPos sc ≤ 10 ∧ norrisPos sc = verstappenPos sc)
  ∨ (1 ≤ norrisPos sc ≤ 10 ∧ norrisPos sc = piastriPos sc)
  ∨ (1 ≤ verstappenPos sc ≤ 10 ∧ verstappenPos sc = piastriPos sc).

(** Every position of the scenario is one of 1..10 or the no-points
    value 11. *)
Definition inSearchSpace (sc : Scenario) : Prop :=
  1 ≤ norrisPos sc ≤ 11 ∧ 1 ≤ verstappenPos sc ≤ 11
  ∧ 1 ≤ piastriPos sc ≤ 11.

(** The order of the sweep: Norris' position, then Verstappen's, then
    Piastri's. *)
Definition sweepBefore (a b : Scenario) : Prop :=
  norrisPos a < norrisPos b
  ∨ (norrisPos a = norrisPos b ∧ verstappenPos a < verstappenPos b)
  ∨ (norrisPos a = norrisPos b ∧ verstappenPos a = verstappenPos b
     ∧ piastriPos a < piastriPos b).

Global Instance sweepBefore_dec : RelDecision sweepBefore.
Proof. intros a b. unfold sweepBefore. apply _. Defined.

(** The rivals of the target, in the order the code lists the three ids. *)
Definition rivals (targetId : string) : list string :=
  filter (λ id, id ≠ targetId) ["norris"; "verstappen"; "piastri"].

(** The order a list would have were it swept with the target's position
    outermost: the target's position first, then the rivals' positions. *)
Fixpoint lexBefore (k1 k2 : list Z) : Prop :=
  match k1, k2 with
  | x :: k1', y :: k2' => x < y ∨ (x = y ∧ lexBefore k1' k2')
  | _, _ => False
  end.

Definition targetFirstBefore (targetId : string) (a b : Scenario) : Prop :=
  let key sc :=
    omap (λ id, scenario_get sc (id +:+ "Pos"))
         (targetId :: rivals targetId) in
  lexBefore (key a) (key b).

(** The ids the code knows. *)
Definition contenderIds : list string := ["norris"; "verstappen"; "piastri"].

(** The positions a contender takes in a list of scenarios. *)
Definition positionsOf (id : string) (scenarios : list Scenario) : list Z :=
  omap (λ sc, scenario_get sc (id +:+ "Pos")) scenarios.

(** [m] is the minimum of [ps]: the best position, closest to first. *)
Definition isBest (m : Z) (ps : list Z) : Prop :=
  m ∈ ps ∧ ∀ x, x ∈ ps → m ≤ x.

(** What one scenario does to the entry of [id] in [minPos], and what a
    list of scenarios makes of the initial 99. *)
Definition relax (sc : Scenario) (id : string) (v : option Z) : option Z :=
  match scenario_get sc (id +:+ "Pos"), v with
  | Some p, Some m => Some (Z.min m p)
  | _, _ => v
  end.

Definition bestPos (id : string) (scenarios : list Scenario) : option Z :=
  foldl (λ v sc, relax sc id v) (Some 99) scenarios.

(** [a] is not behind [b] on the championship keys. *)
Definition notBehind (a b : EnrichedResult) : Prop := ahead a b ∨ level a b.

(** ** app.js

    The [select] elements of the table are a list of values in document
    order: [None] is the value [""] of "No points / DNF", [Some p] the
    value [p.toString()] of the option of position [p]. *)

(** [allSelects.find((s) => s !== changedSelect && s.value === newValue)]:
    the index of the first other select that holds [newValue]. *)
Fixpoint findConflict (changed : nat) (newValue : Z) (i : nat)
    (allSelects : list (option Z)) : option nat :=
  match allSelects with
  | [] => None
  | v :: rest =>
      if decide (i ≠ changed ∧ v = Some newValue) then Some i
      else findConflict changed newValue (S i) rest
  end.

(** The [forEach] that fills [usedValues]. *)
Fixpoint collectUsed (conflicting : nat) (i : nat)
    (allSelects : list (option Z)) (usedValues : gset Z) : gset Z :=
  match allSelects with
  | [] => usedValues
  | v :: rest =>
      let usedValues :=
        match v with
        | Some p =>
            if decide (i ≠ conflicting) then {[p]} ∪ usedValues
            else usedValues
        | None => usedValues
        end in
      collectUsed conflicting (S i) rest usedValues
  end.

(** [while (usedValues.has(bestP)) bestP++], with a bound on the number of
    tests. *)
Fixpoint nextFree (fuel : nat) (usedValues : gset Z) (bestP : Z) : Z :=
  match fuel with
  | O => bestP
  | S fuel' =>
      if decide (bestP ∈ usedValues)
      then nextFree fuel' usedValues (bestP + 1)
      else bestP
  end.

(** [handlePositionChange], run after select number [changed] took its new
    value; the event's target is one of the selects.  One more test than
    [usedValues] has elements ends the loop ([nextFree_free]). *)
Definition handlePositionChange (allSelects : list (option Z))
    (changed : nat) : list (option Z) :=
  match allSelects !! changed with
  | Some (Some newValue) =>
      match findConflict changed newValue 0 allSelects with
      | Some conflicting =>
          let usedValues := collectUsed conflicting 0 allSelects ∅ in
          let bestP := nextFree (S (size usedValues)) usedValues 1 in
          <[conflicting := if bestP <=? 10 then Some bestP else None]>
            allSelects
      | None => allSelects
      end
  | _ => allSelects
  end.

(** The non-empty values of the selects are pairwise different. *)
Definition distinctPositions (allSelects : list (option Z)) : Prop :=
  NoDup (omap (λ v, v) allSelects).

Section simulation.
Context `{Collation} `{Roster}.


End simulation.

(** Position [z] is the value of a select other than number [c]. *)
Definition heldBesides (c : nat) (allSelects : list (option Z)) (z : Z)
    : Prop :=
  ∃ k, k ≠ c ∧ allSelects !! k = Some (Some z).

(** * Properties *)

(** ** The result calculator *)

Lemma RACE_POINTS_defined p : 1 ≤ p ≤ 10 → is_Some (RACE_POINTS !! p).
Proof.
  intros Hp.
  assert (p = 1 ∨ p = 2 ∨ p = 3 ∨ p = 4 ∨ p = 5 ∨
          p = 6 ∨ p = 7 ∨ p = 8 ∨ p = 9 ∨ p = 10) as Hcases by lia.
  repeat (destruct Hcases as [-> | Hcases]; [by eexists |]).
  subst p. by eexists.
Qed.

Lemma racePoints_gate d p :
  racePoints (calculateDriverResult d (Some p)) =
    if decide (1 ≤ p ≤ 10) then RACE_POINTS !!! p else 0.
Proof.
  cbn [calculateDriverResult racePoints].
  destruct (Z.leb_spec p 10), (Z.geb_spec p 1); cbn [andb];
    case_decide; (reflexivity || lia).
Qed.

(** C2.  In the scoring zone the race points are the entry of the fixed
    table, 25-18-15-12-10-8-6-4-2-1; every other position, and the
    no-points value [null], award 0; the final points are the pre-race
    points plus the race points. *)
Theorem calculateDriverResult_points (d : Driver) (finishingPos : option Z) :
  racePoints (calculateDriverResult d finishingPos) =
    match finishingPos with
    | Some 1 => 25 | Some 2 => 18 | Some 3 => 15 | Some 4 => 12
    | Some 5 => 10 | Some 6 => 8 | Some 7 => 6 | Some 8 => 4
    | Some 9 => 2 | Some 10 => 1
    | _ => 0
    end
  ∧ finalPoints (calculateDriverResult d finishingPos) =
      points d + racePoints (calculateDriverResult d finishingPos).
Proof.
  split; [| reflexivity].
  destruct finishingPos as [p |]; [| reflexivity].
  rewrite racePoints_gate.
  destruct p as [| q | q]; [by case_decide; [lia |] | | by case_decide; [lia |]].
  do 4 (try destruct q as [q | q |]);
    case_decide; solve [reflexivity | lia].
Qed.

Lemma elem_of_podium_places (v : option Z) :
  v ∈ [Some 1; Some 2; Some 3] ↔ v = Some 1 ∨ v = Some 2 ∨ v = Some 3.
Proof. rewrite !elem_of_cons, elem_of_nil. tauto. Qed.

(** On the positions the callers pass ([1] and up, or [null]) wins and
    podiums follow the rule: one more win for a first place, one more
    podium for a place among the first three. *)
Lemma calculateDriverResult_wins_podiums_from_1 d finishingPos :
  (∀ p, finishingPos = Some p → 1 ≤ p) →
  finalWins (calculateDriverResult d finishingPos) =
    wins d + (if decide (finishingPos = Some 1) then 1 else 0)
  ∧ finalPodiums (calculateDriverResult d finishingPos) =
      podiums d +
      (if decide (finishingPos ∈ [Some 1; Some 2; Some 3]) then 1 else 0).
Proof.
  intros Hp. split; [reflexivity |].
  cbn [calculateDriverResult finalPodiums]. f_equal.
  destruct finishingPos as [p |].
  - specialize (Hp p eq_refl).
    destruct (Z.leb_spec p 3); case_decide as Hin; try reflexivity.
    + exfalso. apply Hin, elem_of_podium_places.
      assert (p = 1 ∨ p = 2 ∨ p = 3) as [-> | [-> | ->]] by lia; auto.
    + exfalso. apply elem_of_podium_places in Hin.
      destruct Hin as [Hin | [Hin | Hin]]; injection Hin as ->; lia.
  - case_decide as Hin; [| reflexivity].
    apply elem_of_podium_places in Hin.
    destruct Hin as [Hin | [Hin | Hin]]; discriminate Hin.
Qed.

(** C6.  The finish 0 is not among the first three places, and the result
    for it still counts one more podium. *)
Theorem calculateDriverResult_podium_at_0 (d : Driver) :
  (Some 0 ∉ [Some 1; Some 2; Some 3])
  ∧ finalWins (calculateDriverResult d (Some 0)) = wins d
  ∧ finalPodiums (calculateDriverResult d (Some 0)) = podiums d + 1.
Proof.
  split; [| split].
  - rewrite elem_of_podium_places.
    intros [Hin | [Hin | Hin]]; discriminate Hin.
  - cbn [calculateDriverResult finalWins].
    case_decide as Heq; [discriminate Heq | lia].
  - reflexivity.
Qed.

(** C10.  A position at or below 0 earns no race points and no win, and
    one more podium: the podium test has no lower bound.  The result is
    returned all the same. *)
Theorem calculateDriverResult_below_1 (d : Driver) (p : Z) :
  p ≤ 0 →
  ∃ r, calculateDriverResult d (Some p) = r
    ∧ racePoints r = 0
    ∧ finalPoints r = points d
    ∧ finalWins r = wins d
    ∧ finalPodiums r = podiums d + 1.
Proof.
  intros Hp. eexists. split; [reflexivity |].
  assert (racePoints (calculateDriverResult d (Some p)) = 0) as Hrace.
  { rewrite racePoints_gate. case_decide; [lia | reflexivity]. }
  split; [exact Hrace |]. repeat split.
  - change (points d + racePoints (calculateDriverResult d (Some p)) = points d).
    rewrite Hrace. lia.
  - cbn [calculateDriverResult finalWins].
    case_decide as Heq; [| lia]. injection Heq as ->. lia.
  - cbn [calculateDriverResult finalPodiums].
    destruct (Z.leb_spec p 3); [reflexivity | lia].
Qed.

(** ** The standings engine: the champion *)

(** C4.  With two entries or more the champion is entry 0, the second is
    entry 1, and the tie flag says whether the two agree on final points,
    wins and podiums; a single entry is champion, with no second and no
    tie. *)
Theorem determineChampion_classifies :
  (∀ c s rest,
     champion (determineChampion (c :: s :: rest)) = Some c
     ∧ second (determineChampion (c :: s :: rest)) = Some s
     ∧ (isTie (determineChampion (c :: s :: rest)) = true ↔
          finalPoints c = finalPoints s
          ∧ finalWins c = finalWins s
          ∧ finalPodiums c = finalPodiums s))
  ∧ (∀ c,
       determineChampion [c] =
         {| champion := Some c; second := None; isTie := false |}).
Proof.
  split; [| reflexivity].
  intros c s rest. cbn. split; [reflexivity |]. split; [reflexivity |].
  rewrite !andb_true_iff, !Z.eqb_eq. tauto.
Qed.

(** ** The standings engine: the order *)

Section array_sort.
Context {A : Type} (cmp : A → A → Z).

Lemma array_insert_Permutation x l : array_insert cmp x l ≡ₚ x :: l.
Proof.
  induction l as [| y l IH]; cbn; [done |].
  destruct (cmp x y <=? 0); [done |].
  rewrite IH. apply Permutation_swap.
Qed.

Lemma array_sort_cons x l :
  array_sort cmp (x :: l) = array_insert cmp x (array_sort cmp l).
Proof. reflexivity. Qed.

Lemma array_sort_Permutation l : array_sort cmp l ≡ₚ l.
Proof.
  induction l as [| x l IH]; [done |].
  rewrite array_sort_cons, array_insert_Permutation. by f_equiv.
Qed.

Lemma array_sort_length l : length (array_sort cmp l) = length l.
Proof. by rewrite array_sort_Permutation. Qed.

Lemma elem_of_array_sort x l : x ∈ array_sort cmp l ↔ x ∈ l.
Proof. by rewrite array_sort_Permutation. Qed.

(** Sorting needs the comparison to be consistent on the elements at
    hand only. *)
Lemma array_insert_sorted (P : A → Prop) x l :
  (∀ a b, P a → P b → cmp a b ≤ 0 ∨ cmp b a ≤ 0) →
  (∀ a b c, P a → P b → P c → cmp a b ≤ 0 → cmp b c ≤ 0 → cmp a c ≤ 0) →
  P x → Forall P l →
  StronglySorted (λ a b, cmp a b ≤ 0) l →
  StronglySorted (λ a b, cmp a b ≤ 0) (array_insert cmp x l).
Proof.
  intros Htotal Htrans Hx HP Hsorted.
  induction Hsorted as [| y l Hl IH Hy]; cbn.
  { repeat constructor. }
  apply Forall_cons in HP as [HPy HPl].
  destruct (Z.leb_spec (cmp x y) 0) as [Hle | Hgt].
  - constructor; [by constructor |].
    constructor; [done |].
    rewrite Forall_forall in Hy, HPl. apply Forall_forall.
    intros z Hz. eapply (Htrans x y z); eauto.
  - constructor; [by apply IH |].
    rewrite array_insert_Permutation. constructor; [| done].
    destruct (Htotal x y Hx HPy); [lia | done].
Qed.

Lemma array_sort_sorted (P : A → Prop) l :
  (∀ a b, P a → P b → cmp a b ≤ 0 ∨ cmp b a ≤ 0) →
  (∀ a b c, P a → P b → P c → cmp a b ≤ 0 → cmp b c ≤ 0 → cmp a c ≤ 0) →
  Forall P l →
  StronglySorted (λ a b, cmp a b ≤ 0) (array_sort cmp l).
Proof.
  intros Htotal Htrans HP.
  induction HP as [| x l Hx HP IH]; [constructor |].
  rewrite array_sort_cons.
  apply (array_insert_sorted P); try done.
  by rewrite array_sort_Permutation.
Qed.
End array_sort.

Lemma array_sort_fmap {A B} (f : A → B) cmpA cmpB l :
  (∀ a b, cmpB (f a) (f b) = cmpA a b) →
  array_sort cmpB (f <$> l) = f <$> array_sort cmpA l.
Proof.
  intros Hcmp. induction l as [| x l IH]; [done |].
  rewrite fmap_cons, !array_sort_cons, IH. generalize (array_sort cmpA l). clear IH l.
  intros l. induction l as [| y l IH]; cbn; [done |].
  rewrite Hcmp. destruct (cmpA x y <=? 0); cbn; by rewrite ?IH.
Qed.

Lemma StronglySorted_strengthen {A} (R R' : relation A) l :
  (∀ a b, a ∈ l → b ∈ l → a ≠ b → R a b → R' a b) →
  NoDup l → StronglySorted R l → StronglySorted R' l.
Proof.
  intros Himpl Hnodup Hsorted.
  induction Hsorted as [| x l Hl IH Hx]; [constructor |].
  apply NoDup_cons in Hnodup as [Hnotin Hnodup].
  constructor.
  - apply IH; [| done]. intros a b Ha Hb. apply Himpl; by constructor.
  - rewrite Forall_forall in Hx. apply Forall_forall. intros y Hy.
    apply Himpl; [by constructor | by constructor | | by apply Hx].
    intros ->. done.
Qed.

Section standings_order.
Context `{Collation}.

Lemma sortStandings_Permutation l : sortStandings l ≡ₚ l.
Proof. apply array_sort_Permutation. Qed.

Lemma compareStandings_cases a b :
  (ahead a b ∧ compareStandings a b < 0)
  ∨ (ahead b a ∧ 0 < compareStandings a b)
  ∨ (level a b
     ∧ compareStandings a b =
         localeCompare (name (base a)) (name (base b))).
Proof.
  unfold compareStandings, ahead, level.
  destruct (Z.eqb_spec (finalPoints b) (finalPoints a)); cbn [negb];
    [| lia].
  destruct (Z.eqb_spec (finalWins b) (finalWins a)); cbn [negb];
    [| lia].
  destruct (Z.eqb_spec (finalPodiums b) (finalPodiums a)); cbn [negb];
    [| lia].
  right. right. auto.
Qed.

Lemma ahead_level_exclusive a b :
  ¬ (ahead a b ∧ ahead b a) ∧ ¬ (ahead a b ∧ level a b)
  ∧ ¬ (ahead b a ∧ level a b).
Proof. unfold ahead, level. lia. Qed.

Lemma level_sym a b : level a b → level b a.
Proof. unfold level. lia. Qed.

Context `{!CollationLaws}.

Lemma lc_flip s1 s2 : localeCompare s1 s2 ≤ 0 ∨ localeCompare s2 s1 ≤ 0.
Proof.
  destruct (decide (localeCompare s1 s2 ≤ 0)); [by left | right].
  assert (0 < localeCompare s1 s2) as Hpos by lia.
  apply lc_antisym in Hpos. lia.
Qed.

Lemma compareStandings_le a b :
  compareStandings a b ≤ 0 ↔
    ahead a b
    ∨ (level a b ∧ localeCompare (name (base a)) (name (base b)) ≤ 0).
Proof.
  pose proof (ahead_level_exclusive a b) as (? & ? & ?).
  destruct (compareStandings_cases a b)
    as [[? ?] | [[? ?] | [? Heq]]]; [intuition lia .. |].
  rewrite Heq. intuition.
Qed.

Lemma compareStandings_total a b :
  compareStandings a b ≤ 0 ∨ compareStandings b a ≤ 0.
Proof.
  rewrite !compareStandings_le.
  destruct (compareStandings_cases a b)
    as [[? ?] | [[? ?] | [Hlevel _]]]; [auto .. |].
  destruct (lc_flip (name (base a)) (name (base b)));
    auto using level_sym.
Qed.

Lemma compareStandings_trans a b c :
  compareStandings a b ≤ 0 → compareStandings b c ≤ 0 →
  compareStandings a c ≤ 0.
Proof.
  rewrite !compareStandings_le.
  intros [Hab | [Hab Hnab]] [Hbc | [Hbc Hnbc]].
  - left. revert Hab Hbc. unfold ahead. lia.
  - left. revert Hab Hbc. unfold ahead, level. lia.
  - left. revert Hab Hbc. unfold ahead, level. lia.
  - right. split; [revert Hab Hbc; unfold level; lia |].
    by eapply lc_trans.
Qed.

Lemma ranksBefore_asym a b : ranksBefore a b → ranksBefore b a → False.
Proof.
  pose proof (ahead_level_exclusive a b) as (? & ? & ?).
  intros [? | [? Hab]] [? | [? Hba]]; auto using level_sym.
  apply lc_antisym in Hab. lia.
Qed.

Lemma compareStandings_ranksBefore a b :
  name (base a) ≠ name (base b) →
  compareStandings a b ≤ 0 → ranksBefore a b.
Proof.
  intros Hne. rewrite compareStandings_le. intros [? | [? Hle]].
  - by left.
  - right. split; [done |].
    destruct (decide (localeCompare (name (base a)) (name (base b)) = 0))
      as [Heq | ?]; [| lia].
    by apply lc_sep in Heq.
Qed.

Lemma sortStandings_ranked l :
  NoDup (name ∘ base <$> l) →
  StronglySorted ranksBefore (sortStandings l).
Proof.
  intros Hnames.
  assert (sortStandings l ≡ₚ l) as Hperm
    by apply array_sort_Permutation.
  apply (StronglySorted_strengthen (λ a b, compareStandings a b ≤ 0)).
  - intros a b Ha Hb Hne. apply compareStandings_ranksBefore.
    intros Hname. apply Hne.
    rewrite Hperm in Ha, Hb.
    apply list_elem_of_lookup in Ha as [i Hi], Hb as [j Hj].
    assert (i = j) as ->; [| congruence].
    eapply NoDup_lookup; [exact Hnames | |];
      rewrite list_lookup_fmap; [by rewrite Hi | rewrite Hj; cbn].
    by rewrite <- Hname.
  - rewrite Hperm. by eapply NoDup_fmap_1.
  - apply (array_sort_sorted _ (λ _, True));
      eauto using compareStandings_total, compareStandings_trans.
    by apply Forall_true.
Qed.
End standings_order.

(** C3.  On the championship keys exactly one of three cases holds for a
    pair: the first is ahead, the second is ahead, or they are level, and
    then the names decide.  So the standings of results with distinct names
    are the one arrangement in the order of [ranksBefore] (points, wins and
    podiums descending, then name ascending), whatever the order of the
    input. *)
Theorem sortStandings_total_order `{Collation} `{!CollationLaws} :
  (∀ a b,
     (ahead a b ∨ ahead b a ∨ level a b)
     ∧ ¬ (ahead a b ∧ ahead b a)
     ∧ ¬ (ahead a b ∧ level a b)
     ∧ ¬ (ahead b a ∧ level a b)
     ∧ (ahead a b → compareStandings a b < 0)
     ∧ (ahead b a → 0 < compareStandings a b)
     ∧ (level a b →
          compareStandings a b =
            localeCompare (name (base a)) (name (base b))))
  ∧ (∀ l,
       NoDup (name ∘ base <$> l) →
       sortStandings l ≡ₚ l
       ∧ StronglySorted ranksBefore (sortStandings l)
       ∧ (∀ l', l' ≡ₚ l → StronglySorted ranksBefore l' →
                l' = sortStandings l)
       ∧ (∀ l', l' ≡ₚ l → sortStandings l' = sortStandings l)).
Proof.
  split.
  - intros a b.
    pose proof (ahead_level_exclusive a b) as (? & ? & ?).
    destruct (compareStandings_cases a b)
      as [[? ?] | [[? ?] | [? ?]]]; intuition.
  - intros l Hnames.
    assert (∀ l1 l2, l1 ≡ₚ l2 →
              StronglySorted ranksBefore l1 →
              StronglySorted ranksBefore l2 → l1 = l2) as Hunique.
    { intros l1 l2 Hperm Hl1 Hl2.
      apply (StronglySorted_unique_strong ranksBefore); try done.
      intros x1 x2 _ _ H12 H21. by destruct (ranksBefore_asym x1 x2). }
    split; [apply sortStandings_Permutation |].
    split; [by apply sortStandings_ranked |].
    split.
    + intros l' Hperm Hl'. apply Hunique; [| done |].
      * by rewrite Hperm, sortStandings_Permutation.
      * by apply sortStandings_ranked.
    + intros l' Hperm. apply Hunique.
      * by rewrite !sortStandings_Permutation.
      * apply sortStandings_ranked. by rewrite Hperm.
      * by apply sortStandings_ranked.
Qed.

(** The code-point collation is a consistent comparison. *)
Lemma codePointCollation_le s1 s2 :
  @localeCompare codePointCollation s1 s2 ≤ 0 ↔ String.le s1 s2.
Proof.
  unfold localeCompare, codePointCollation, String.le, String.leb.
  destruct (String.compare s1 s2); cbn; intuition lia.
Qed.

Global Instance codePointCollation_laws : @CollationLaws codePointCollation.
Proof.
  split.
  - intros s. unfold localeCompare, codePointCollation.
    assert (String.compare s s = Eq) as ->; [| done].
    pose proof (String.compare_antisym s s) as Hanti.
    destruct (String.compare s s); done.
  - intros s1 s2. unfold localeCompare, codePointCollation.
    rewrite (String.compare_antisym s2 s1).
    destruct (String.compare s1 s2); cbn; lia.
  - intros s1 s2 s3. rewrite !codePointCollation_le. apply transitivity.
  - intros s1 s2. unfold localeCompare, codePointCollation.
    destruct (String.compare s1 s2) eqn:Hcmp; [| lia ..].
    intros _. by apply String.compare_eq_iff.
Qed.

(** ** The scenario sweep *)

Lemma for_steps_collect {A} (f : Z → list A) body n i acc :
  (∀ j s, body j s = Some (s ++ f j)) →
  for_steps n i body acc = Some (acc ++ (seqZ i (Z.of_nat n) ≫= f)).
Proof.
  intros Hbody. revert i acc.
  induction n as [| n IH]; intros i acc.
  - cbn. by rewrite app_nil_r.
  - cbn [for_steps]. rewrite Hbody. cbn [mbind option_bind]. rewrite IH.
    rewrite (seqZ_cons i) by lia. rewrite bind_cons, app_assoc.
    do 4 f_equal; lia.
Qed.

Lemma filter_bind {A B} (P : B → Prop) `{!∀ x, Decision (P x)}
    (f : A → list B) (l : list A) :
  filter P (l ≫= f) = l ≫= (λ x, filter P (f x)).
Proof.
  induction l as [| x l IH]; [done |].
  by rewrite !bind_cons, filter_app, IH.
Qed.

Section sweep.
Context `{Collation} `{Roster}.

Lemma winsTitle_soleChampion targetId sc :
  winsTitle targetId sc = true ↔ soleChampion targetId sc.
Proof.
  unfold winsTitle, soleChampion. split.
  - destruct (scenarioOutcome sc) as [o |]; [| done].
    destruct (champion o) as [c |] eqn:Hc; [| done].
    intros [Hid Htie]%andb_true_iff. exists o, c.
    apply String.eqb_eq in Hid. apply negb_true_iff in Htie. done.
  - intros (o & c & -> & -> & Hid & ->).
    apply String.eqb_eq in Hid. by rewrite Hid.
Qed.

Lemma champion_of_three a b c :
  is_Some (champion (determineChampion (sortStandings [a; b; c]))).
Proof.
  pose proof (array_sort_length compareStandings [a; b; c]) as Hlen.
  unfold sortStandings.
  destruct (array_sort compareStandings [a; b; c]) as [| x [| y l]];
    cbn in Hlen; [lia | lia |].
  by eexists.
Qed.

Section three_contenders.
Context (Hthree : (3 ≤ length contenders)%nat).

Lemma three_contenders :
  ∃ n v p, norris = Some n ∧ verstappen = Some v ∧ piastri = Some p.
Proof.
  unfold norris, verstappen, piastri.
  destruct contenders as [| n [| v [| p rest]]]; cbn in Hthree;
    [lia .. |].
  by exists n, v, p.
Qed.

Lemma tryScenario_collect targetId posN posV posP acc :
  tryScenario targetId posN posV posP acc =
    Some (acc ++
      filter (λ sc, winsTitle targetId sc = true)
        [{| norrisPos := posN; verstappenPos := posV;
            piastriPos := posP |}]).
Proof.
  destruct three_contenders as (n & v & p & Hn & Hv & Hp).
  rewrite filter_cons, filter_nil.
  unfold tryScenario, winsTitle, scenarioOutcome.
  rewrite Hn, Hv, Hp. cbn [mbind option_bind norrisPos verstappenPos piastriPos].
  destruct (champion_of_three
              (calculateDriverResult n (finishOf posN))
              (calculateDriverResult v (finishOf posV))
              (calculateDriverResult p (finishOf posP))) as [c Hc].
  rewrite Hc. cbn [mbind option_bind].
  destruct (String.eqb (id (base c)) targetId && negb _);
    case_decide; try done.
  by rewrite app_nil_r.
Qed.

Lemma findWinningScenarios_filters_sweep targetId :
  findWinningScenarios targetId =
    Some (filter (λ sc, winsTitle targetId sc = true) sweep).
Proof.
  unfold findWinningScenarios, for_upto, MAX_POS, sweep.
  change (Z.to_nat (11 + 1 - 1)) with 11%nat.
  rewrite filter_bind.
  erewrite for_steps_collect; [reflexivity |].
  intros posN acc. cbn beta.
  rewrite filter_bind.
  erewrite for_steps_collect; [reflexivity |].
  intros posV acc'. cbn beta.
  destruct ((posN <=? 10) && (posV <=? 10) && (posN =? posV)).
  { by rewrite filter_nil, app_nil_r. }
  rewrite filter_bind.
  erewrite for_steps_collect; [reflexivity |].
  intros posP acc''. cbn beta.
  destruct ((posP <=? 10) && ((posN <=? 10) && (posN =? posP))).
  { by rewrite filter_nil, app_nil_r. }
  destruct ((posP <=? 10) && ((posV <=? 10) && (posV =? posP))).
  { by rewrite filter_nil, app_nil_r. }
  apply tryScenario_collect.
Qed.
End three_contenders.

(** With fewer than three contenders the first combination past the
    collision checks, (1, 2, 3), reads a property of [undefined]. *)
Lemma findWinningScenarios_throws targetId :
  (length contenders < 3)%nat → findWinningScenarios targetId = None.
Proof.
  unfold findWinningScenarios, tryScenario, norris, verstappen, piastri.
  destruct contenders as [| n [| v [| p rest]]]; cbn [length]; intros Hlen;
    [vm_compute; reflexivity .. | lia].
Qed.

Lemma findWinningScenarios_returns targetId l :
  findWinningScenarios targetId = Some l →
  (3 ≤ length contenders)%nat
  ∧ l = filter (λ sc, winsTitle targetId sc = true) sweep.
Proof.
  intros Hret.
  destruct (decide (3 ≤ length contenders)%nat) as [Hthree | Hfew].
  - split; [done |].
    rewrite (findWinningScenarios_filters_sweep Hthree) in Hret. congruence.
  - rewrite findWinningScenarios_throws in Hret by lia. done.
Qed.
End sweep.

Lemma sweep_sorted : StronglySorted sweepBefore sweep.
Proof. apply (bool_decide_unpack _). by vm_compute. Qed.

Lemma elem_of_sweep sc :
  sc ∈ sweep ↔ inSearchSpace sc ∧ ¬ scoringClash sc.
Proof.
  unfold sweep, inSearchSpace, scoringClash. split.
  - intros (posN & Hsc & HN%elem_of_seqZ)%list_elem_of_bind.
    apply list_elem_of_bind in Hsc as (posV & Hsc & HV%elem_of_seqZ).
    destruct (Z.leb_spec posN 10), (Z.leb_spec posV 10),
      (Z.eqb_spec posN posV); cbn [andb] in Hsc;
      try (by apply elem_of_nil in Hsc);
      apply list_elem_of_bind in Hsc as (posP & Hsc & HP%elem_of_seqZ);
      destruct (Z.leb_spec posP 10), (Z.eqb_spec posN posP),
        (Z.eqb_spec posV posP); cbn [andb] in Hsc;
      try (by apply elem_of_nil in Hsc);
      apply list_elem_of_singleton in Hsc as ->; cbn; lia.
  - destruct sc as [posN posV posP]. cbn. intros [Hspace Hclash].
    apply list_elem_of_bind. exists posN.
    split; [| apply elem_of_seqZ; lia].
    apply list_elem_of_bind. exists posV.
    split; [| apply elem_of_seqZ; lia].
    destruct (Z.leb_spec posN 10), (Z.leb_spec posV 10),
      (Z.eqb_spec posN posV); cbn [andb]; try lia;
      (apply list_elem_of_bind; exists posP;
       split; [| apply elem_of_seqZ; lia]);
      destruct (Z.leb_spec posP 10), (Z.eqb_spec posN posP),
        (Z.eqb_spec posV posP); cbn [andb]; try lia;
      by apply list_elem_of_singleton.
Qed.

Lemma StronglySorted_filter {A} (R : relation A) (P : A → Prop)
    `{!∀ x, Decision (P x)} l :
  StronglySorted R l → StronglySorted R (filter P l).
Proof.
  induction 1 as [| x l Hl IH Hx]; [constructor |].
  rewrite filter_cons. case_decide; [| done].
  constructor; [done |].
  rewrite Forall_forall in Hx. apply Forall_forall.
  intros y [_ Hy]%list_elem_of_filter. by apply Hx.
Qed.

(** C1.  Every scenario the search returns makes the target the champion
    of the three ranked results, with the tie flag off; and with three
    contenders in the roster the search does return. *)
Theorem findWinningScenarios_sole_champion `{Collation} `{Roster}
    (targetId : string) :
  ((3 ≤ length contenders)%nat → is_Some (findWinningScenarios targetId))
  ∧ ∀ l sc,
      findWinningScenarios targetId = Some l → sc ∈ l →
      ∃ o c, scenarioOutcome sc = Some o
             ∧ champion o = Some c
             ∧ id (base c) = targetId
             ∧ isTie o = false.
Proof.
  split.
  - intros Hthree. rewrite (findWinningScenarios_filters_sweep Hthree). by eexists.
  - intros l sc [_ ->]%findWinningScenarios_returns
      [Hwins _]%list_elem_of_filter.
    by apply winsTitle_soleChampion.
Qed.

(** C5.  No scenario the search returns puts two contenders on one scoring
    position; positions stay within 1..11.  Sharing the no-points value 11
    excludes nothing: every combination without a scoring clash that makes
    the target sole champion is returned. *)
Theorem findWinningScenarios_no_clash `{Collation} `{Roster}
    (targetId : string) (l : list Scenario) :
  findWinningScenarios targetId = Some l →
  (∀ sc, sc ∈ l → inSearchSpace sc ∧ ¬ scoringClash sc)
  ∧ (∀ sc, inSearchSpace sc → ¬ scoringClash sc →
           soleChampion targetId sc → sc ∈ l).
Proof.
  intros [_ ->]%findWinningScenarios_returns. split.
  - intros sc [_ Hsc]%list_elem_of_filter. by apply elem_of_sweep.
  - intros sc Hspace Hclash Hsole. apply list_elem_of_filter. split.
    + by apply winsTitle_soleChampion.
    + by apply elem_of_sweep.
Qed.

(** C7, as the code has it.  The list is in the order of the sweep, which
    runs over Norris' position, then Verstappen's, then Piastri's,
    whoever the target is. *)
Theorem findWinningScenarios_sweep_order `{Collation} `{Roster}
    (targetId : string) (l : list Scenario) :
  findWinningScenarios targetId = Some l →
  StronglySorted sweepBefore l.
Proof.
  intros [_ ->]%findWinningScenarios_returns.
  apply StronglySorted_filter, sweep_sorted.
Qed.

(** ** Grouping: the constraints of a bucket *)

Lemma scenario_get_contender id :
  id ∈ contenderIds →
  ∃ pos : Scenario → Z, ∀ sc, scenario_get sc (id +:+ "Pos") = Some (pos sc).
Proof.
  unfold contenderIds. rewrite !elem_of_cons, elem_of_nil.
  intros [-> | [-> | [-> | []]]]; eexists; intros sc; reflexivity.
Qed.

Lemma rivals_contenders targetId : rivals targetId ⊆ contenderIds.
Proof. intros id [_ Hid]%list_elem_of_filter. exact Hid. Qed.

Lemma rivals_NoDup targetId : NoDup (rivals targetId).
Proof.
  apply NoDup_filter. apply (bool_decide_unpack _). by vm_compute.
Qed.

Lemma tightenMinPos_lookup sc minPos id id' :
  tightenMinPos sc minPos id !! id' =
    if decide (id = id') then relax sc id (minPos !! id) else minPos !! id'.
Proof.
  unfold tightenMinPos, relax.
  destruct (scenario_get sc (id +:+ "Pos")) as [p |];
    [| by case_decide; subst].
  destruct (minPos !! id) as [m |] eqn:Hm; [| by case_decide; subst].
  destruct (Z.ltb_spec p m).
  - rewrite lookup_insert. case_decide; [| done]. f_equal. lia.
  - case_decide; [| done]. subst. rewrite Hm. f_equal. lia.
Qed.

Lemma foldl_tightenMinPos_lookup sc ids minPos id' :
  NoDup ids →
  foldl (tightenMinPos sc) minPos ids !! id' =
    if decide (id' ∈ ids) then relax sc id' (minPos !! id')
    else minPos !! id'.
Proof.
  intros Hnodup. revert minPos.
  induction Hnodup as [| id ids Hnotin Hnodup IH]; intros minPos.
  { cbn. case_decide as Hin; [| done]. by apply elem_of_nil in Hin. }
  cbn [foldl]. rewrite IH, tightenMinPos_lookup.
  destruct (decide (id = id')) as [-> | Hne].
  - rewrite (decide_False (P := id' ∈ ids)) by done.
    rewrite decide_True by constructor. done.
  - destruct (decide (id' ∈ ids)) as [Hin | Hout].
    + rewrite decide_True by (by constructor). done.
    + rewrite decide_False; [done |].
      intros [? | ?]%elem_of_cons; congruence.
Qed.

Lemma foldl_scenarios_lookup scenarios ids minPos id' :
  NoDup ids → id' ∈ ids →
  foldl (λ minPos sc, foldl (tightenMinPos sc) minPos ids) minPos scenarios
    !! id' =
  foldl (λ v sc, relax sc id' v) (minPos !! id') scenarios.
Proof.
  intros Hnodup Hin. revert minPos.
  induction scenarios as [| sc scenarios IH]; intros minPos; [done |].
  cbn [foldl]. rewrite IH, foldl_tightenMinPos_lookup by done.
  by rewrite decide_True.
Qed.

Lemma foldl_init_lookup ids (minPos : gmap string Z) id' :
  foldl (λ minPos id, <[id := 99]> minPos) minPos ids !! id' =
    if decide (id' ∈ ids) then Some 99 else minPos !! id'.
Proof.
  revert minPos. induction ids as [| id ids IH]; intros minPos.
  { cbn. case_decide as Hin; [| done]. by apply elem_of_nil in Hin. }
  cbn [foldl]. rewrite IH.
  destruct (decide (id' ∈ ids)) as [Hin | Hout].
  - by rewrite decide_True by (by constructor).
  - rewrite lookup_insert.
    destruct (decide (id = id')) as [-> | Hne].
    + by rewrite decide_True by constructor.
    + rewrite decide_False; [done |].
      intros [? | ?]%elem_of_cons; congruence.
Qed.

Lemma summarizeConstraints_bestPos scenarios otherIds :
  NoDup otherIds →
  summarizeConstraints scenarios otherIds =
    String.concat " AND <br>"
      ((λ id, capitalize id +:+ " finishes " +:+
              displayOf (bestPos id scenarios) +:+ " or lower")
         <$> otherIds).
Proof.
  intros Hnodup. unfold summarizeConstraints. f_equal.
  apply list_fmap_ext. intros i id Hid%list_elem_of_lookup_2.
  unfold constraintOf, bestPos.
  rewrite foldl_scenarios_lookup, foldl_init_lookup by done.
  by rewrite decide_True.
Qed.

Lemma foldl_min_bounds {A} (pos : A → Z) l x :
  let m := foldl (λ a y, Z.min a (pos y)) x l in
  m ≤ x ∧ (∀ y, y ∈ l → m ≤ pos y) ∧ (m = x ∨ ∃ y, y ∈ l ∧ m = pos y).
Proof.
  revert x. induction l as [| z l IH]; intros x; cbn.
  { split; [lia |]. split; [| by left]. by intros y ?%elem_of_nil. }
  destruct (IH (Z.min x (pos z))) as (Hle & Hall & Hex).
  split; [lia |]. split.
  - intros y [-> | Hy]%elem_of_cons; [lia | by apply Hall].
  - destruct Hex as [Heq | (y & Hy & Heq)].
    + destruct (Z.min_spec x (pos z)) as [[_ Hmin] | [_ Hmin]].
      * left. lia.
      * right. exists z. split; [constructor | lia].
    + right. exists y. split; [by constructor | done].
Qed.

Lemma bestPos_isBest id scenarios :
  id ∈ contenderIds → scenarios ≠ [] → Forall inSearchSpace scenarios →
  ∃ m, bestPos id scenarios = Some m ∧ isBest m (positionsOf id scenarios).
Proof.
  intros [pos Hpos]%scenario_get_contender Hne Hspace.
  assert (∀ sc, sc ∈ scenarios → 1 ≤ pos sc ≤ 11) as Hrange.
  { rewrite Forall_forall in Hspace. intros sc Hsc.
    specialize (Hspace sc Hsc). specialize (Hpos sc).
    destruct Hspace as (? & ? & ?). unfold scenario_get in Hpos.
    repeat case_match; simplify_eq; lia. }
  assert (∀ x, foldl (λ v sc, relax sc id v) (Some x) scenarios =
               Some (foldl (λ a sc, Z.min a (pos sc)) x scenarios)) as Hfold.
  { clear Hne Hspace Hrange. induction scenarios as [| sc l IH]; intros x;
      [done |].
    cbn [foldl]. unfold relax at 2. by rewrite Hpos, IH. }
  assert (positionsOf id scenarios = pos <$> scenarios) as Hps.
  { unfold positionsOf. clear -Hpos.
    induction scenarios as [| sc l IH]; [done |].
    cbn. rewrite Hpos. cbn. by rewrite <- IH. }
  eexists. split; [apply Hfold |].
  destruct (foldl_min_bounds pos scenarios 99) as (Hle & Hall & Hex).
  rewrite Hps. split.
  - destruct Hex as [Heq | (sc & Hsc & Heq)].
    + destruct scenarios as [| sc l]; [done |].
      pose proof (Hall sc ltac:(constructor)).
      pose proof (Hrange sc ltac:(constructor)). lia.
    + rewrite Heq. by apply list_elem_of_fmap_2.
  - intros x (sc & -> & Hsc)%list_elem_of_fmap. by apply Hall.
Qed.

(** ** Grouping: the buckets *)

Lemma fmap_Some_omap {A} (l : list (option A)) :
  Forall is_Some l → Some <$> omap (λ x, x) l = l.
Proof.
  induction 1 as [| x l [a ->] _ IH]; [done |].
  cbn. by rewrite IH.
Qed.

Section buckets.
Context (targetId : string).

Local Abbreviation targetPosOf sc := (scenario_get sc (targetId +:+ "Pos")).
Local Abbreviation bucket k scenarios :=
  (filter (λ sc, targetPosOf sc = k) scenarios).

Lemma pushScenario_lookup byTargetPos sc k :
  pushScenario targetId byTargetPos sc !! k =
    if decide (targetPosOf sc = k)
    then Some (default [] (byTargetPos !! targetPosOf sc) ++ [sc])
    else byTargetPos !! k.
Proof.
  unfold pushScenario. rewrite lookup_alter.
  destruct (byTargetPos !! targetPosOf sc) as [b |] eqn:Hb.
  - case_decide; [| done]. by rewrite Hb.
  - case_decide as Hk; [by rewrite lookup_insert_eq |].
    by rewrite lookup_insert_ne.
Qed.

Lemma byTargetPos_lookup scenarios k :
  foldl (pushScenario targetId) ∅ scenarios !! k =
    match bucket k scenarios with
    | [] => None
    | b => Some b
    end.
Proof.
  revert k. induction scenarios as [| sc scenarios IH] using rev_ind;
    intros k.
  { cbn [foldl]. by rewrite filter_nil, lookup_empty. }
  rewrite foldl_snoc, pushScenario_lookup, filter_app, filter_cons,
    filter_nil, !IH.
  case_decide as Hk.
  - subst k.
    destruct (bucket (targetPosOf sc) scenarios) as [| x b]; done.
  - rewrite app_nil_r. done.
Qed.

Lemma byTargetPos_lookup_total scenarios k :
  foldl (pushScenario targetId) ∅ scenarios !!! k = bucket k scenarios.
Proof.
  rewrite lookup_total_alt, byTargetPos_lookup.
  by destruct (bucket k scenarios).
Qed.

Lemma byTargetPos_keys scenarios k :
  k ∈ (map_to_list (foldl (pushScenario targetId) ∅ scenarios)).*1 ↔
    ∃ sc, sc ∈ scenarios ∧ targetPosOf sc = k.
Proof.
  rewrite list_elem_of_fmap. split.
  - intros ([k' b] & -> & Hkb%elem_of_map_to_list). cbn.
    rewrite byTargetPos_lookup in Hkb.
    destruct (bucket k' scenarios) as [| sc b'] eqn:Hb; [done |].
    exists sc.
    assert (sc ∈ bucket k' scenarios) as [? ?]%list_elem_of_filter; [| done].
    rewrite Hb. constructor.
  - intros (sc & Hsc & Hk).
    exists (k, bucket k scenarios). split; [done |].
    apply elem_of_map_to_list. rewrite byTargetPos_lookup.
    assert (sc ∈ bucket k scenarios) as Hin
      by by apply list_elem_of_filter.
    destruct (bucket k scenarios); [by apply elem_of_nil in Hin | done].
Qed.

(** For a contender's id the groups are the buckets of the target's
    positions, taken in ascending order. *)
Lemma groupScenarios_groups scenarios :
  targetId ∈ contenderIds →
  ∃ ks : list Z,
    StronglySorted Z.lt ks
    ∧ (∀ k, k ∈ ks ↔ ∃ sc, sc ∈ scenarios ∧ targetPosOf sc = Some k)
    ∧ groupScenarios targetId scenarios =
        (λ k, {| position := displayOf (Some k);
                 description :=
                   summarizeConstraints (bucket (Some k) scenarios)
                     (rivals targetId) |}) <$> ks.
Proof.
  intros [pos Hpos]%scenario_get_contender.
  unfold groupScenarios.
  set (byTargetPos := foldl (pushScenario targetId) ∅ scenarios).
  set (keys := (map_to_list byTargetPos).*1).
  assert (NoDup keys) as Hnodup by apply NoDup_fst_map_to_list.
  assert (Forall is_Some keys) as Hsome.
  { apply Forall_forall. intros k (sc & _ & <-)%byTargetPos_keys.
    rewrite Hpos. by eexists. }
  apply fmap_Some_omap in Hsome.
  set (zs := omap (λ x, x) keys) in Hsome.
  assert (NoDup zs) as Hzs.
  { apply (NoDup_fmap_1 Some). by rewrite Hsome. }
  exists (array_sort (λ a b, a - b) zs). split; [| split].
  - apply (StronglySorted_strengthen (λ a b, a - b ≤ 0)).
    + intros a b _ _ Hne Hle. lia.
    + by rewrite array_sort_Permutation.
    + apply (array_sort_sorted _ (λ _, True)).
      * intros a b _ _. lia.
      * intros a b c _ _ _. lia.
      * by apply Forall_true.
  - intros k. rewrite elem_of_array_sort.
    rewrite <- (byTargetPos_keys scenarios (Some k)).
    fold byTargetPos keys. rewrite <- Hsome.
    split; [apply list_elem_of_fmap_2 |].
    intros (z & [= ->] & Hz)%list_elem_of_fmap. done.
  - rewrite <- Hsome.
    rewrite (array_sort_fmap Some (λ a b, a - b) compareKeys) by done.
    rewrite <- list_fmap_compose. apply list_fmap_ext.
    intros i k _. cbn. unfold byTargetPos.
    by rewrite byTargetPos_lookup_total.
Qed.
End buckets.

(** C9.  For a contender's id there is one group for each position the
    target takes in the list; the groups come in ascending order of that
    position, so 11 comes last; the labels are P1 .. P10 and No Points. *)
Theorem groupScenarios_one_group_per_position
    (targetId : string) (scenarios : list Scenario) :
  targetId ∈ contenderIds →
  ∃ ks : list Z,
    position <$> groupScenarios targetId scenarios =
      (λ k, displayOf (Some k)) <$> ks
    ∧ StronglySorted Z.lt ks
    ∧ (∀ k, k ∈ ks ↔
            ∃ sc, sc ∈ scenarios
                  ∧ scenario_get sc (targetId +:+ "Pos") = Some k)
    ∧ (λ k, displayOf (Some k)) <$> seqZ 1 11 =
        ["P1"; "P2"; "P3"; "P4"; "P5"; "P6"; "P7"; "P8"; "P9"; "P10";
         "No Points"].
Proof.
  intros Hid.
  destruct (groupScenarios_groups targetId scenarios Hid)
    as (ks & Hsorted & Hks & ->).
  exists ks. split; [| split; [done | split; [done | by vm_compute]]].
  rewrite <- list_fmap_compose. by apply list_fmap_ext.
Qed.

(** C8, as the code has it.  For a contender's id and scenarios within the
    search space, the group of a non-empty bucket carries one constraint
    for each rival, built from the best (least) position the rival takes
    in the bucket; the rival's id is capitalised, positions past 10 read
    No Points, and the constraints are joined by " AND <br>". *)
Theorem groupScenarios_bucket_description :
  (∀ (targetId : string) (scenarios : list Scenario) (k : Z),
     let bucket :=
       filter (λ sc, scenario_get sc (targetId +:+ "Pos") = Some k)
         scenarios in
     targetId ∈ contenderIds →
     Forall inSearchSpace scenarios →
     bucket ≠ [] →
     ∃ best : string → Z,
       (∀ r, r ∈ rivals targetId → isBest (best r) (positionsOf r bucket))
       ∧ {| position := displayOf (Some k);
            description :=
              String.concat " AND <br>"
                ((λ r, capitalize r +:+ " finishes " +:+
                       displayOf (Some (best r)) +:+ " or lower")
                   <$> rivals targetId) |}
         ∈ groupScenarios targetId scenarios)
  ∧ sampleBucket =
      [ {| norrisPos := 1; verstappenPos := 4; piastriPos := 5 |};
        {| norrisPos := 1; verstappenPos := 5; piastriPos := 5 |};
        {| norrisPos := 1; verstappenPos := 4; piastriPos := 6 |} ]
  ∧ groupScenarios "norris" sampleBucket =
      [ {| position := "P1";
           description :=
             "Verstappen finishes P4 or lower AND <br>Piastri finishes P5 or lower"
        |} ].
Proof.
  split; [| split; [reflexivity | by vm_compute]].
  intros targetId scenarios k bucket Hid Hspace Hne.
  destruct (groupScenarios_groups targetId scenarios Hid)
    as (ks & _ & Hks & ->).
  assert (Forall inSearchSpace bucket) as Hbucket.
  { rewrite Forall_forall in Hspace. apply Forall_forall.
    intros sc [_ Hsc]%list_elem_of_filter. by apply Hspace. }
  assert (∀ r, r ∈ rivals targetId →
            ∃ m, bestPos r bucket = Some m
                 ∧ isBest m (positionsOf r bucket)) as Hbest.
  { intros r Hr%rivals_contenders. by apply bestPos_isBest. }
  exists (λ r, default 0 (bestPos r bucket)). split.
  - intros r (m & -> & Hm)%Hbest. done.
  - apply list_elem_of_fmap. exists k. split.
    + f_equal. rewrite summarizeConstraints_bestPos by apply rivals_NoDup.
      f_equal. apply list_fmap_ext.
      intros i r (m & Hm & _)%list_elem_of_lookup_2%Hbest.
      fold bucket. by rewrite Hm.
    + apply Hks. destruct bucket as [| sc b] eqn:Hb; [done |].
      exists sc.
      assert (sc ∈ bucket) as [? ?]%list_elem_of_filter; [| done].
      subst bucket. rewrite Hb. constructor.
Qed.

(** ** The properties at work on the sample roster *)

Lemma StronglySorted_lookup_lt {A} (R : relation A) l i j a b :
  StronglySorted R l → l !! i = Some a → l !! j = Some b → (i < j)%nat →
  R a b.
Proof.
  intros Hsorted. revert i j.
  induction Hsorted as [| x l Hl IH Hx]; intros i j Hi Hj Hlt; [done |].
  destruct j as [| j]; [lia |]. cbn in Hj.
  destruct i as [| i]; cbn in Hi.
  - injection Hi as ->. rewrite Forall_forall in Hx.
    by eapply Hx, list_elem_of_lookup_2.
  - eapply IH; eauto. lia.
Qed.

Lemma calculateDriverResult_below_1_witness :
  0 ≤ 0
  ∧ ∃ r, calculateDriverResult sampleNorris (Some 0) = r
      ∧ racePoints r = 0
      ∧ finalPoints r = 408
      ∧ finalWins r = 7
      ∧ finalPodiums r = 17 + 1.
Proof.
  split; [lia |]. apply (calculateDriverResult_below_1 sampleNorris 0). lia.
Defined.

Lemma determineChampion_classifies_witness :
  isTie (determineChampion
           [calculateDriverResult sampleNorris (Some 1);
            calculateDriverResult sampleNorris (Some 1)]) = true.
Proof.
  apply (proj1 determineChampion_classifies
           (calculateDriverResult sampleNorris (Some 1))
           (calculateDriverResult sampleNorris (Some 1)) []).
  repeat split; reflexivity.
Defined.

Lemma sortStandings_total_order_witness :
  NoDup (name ∘ base <$> sampleResults)
  ∧ StronglySorted (@ranksBefore codePointCollation)
      (@sortStandings codePointCollation sampleResults).
Proof.
  assert (NoDup (name ∘ base <$> sampleResults)) as Hnames.
  { apply (bool_decide_unpack _). vm_compute. reflexivity. }
  split; [exact Hnames |].
  apply (proj2 (@sortStandings_total_order codePointCollation
                  codePointCollation_laws) sampleResults Hnames).
Defined.

Lemma findWinningScenarios_sole_champion_witness :
  ∃ o c,
    @scenarioOutcome codePointCollation sampleRoster
      {| norrisPos := 8; verstappenPos := 2; piastriPos := 3 |} = Some o
    ∧ champion o = Some c
    ∧ id (base c) = "verstappen"
    ∧ isTie o = false.
Proof.
  eapply (proj2 (@findWinningScenarios_sole_champion codePointCollation
                   sampleRoster "verstappen")).
  - vm_compute. reflexivity.
  - apply (bool_decide_unpack _). vm_compute. reflexivity.
Defined.

Lemma findWinningScenarios_no_clash_witness :
  inSearchSpace {| norrisPos := 11; verstappenPos := 1; piastriPos := 11 |}
  ∧ ¬ scoringClash
        {| norrisPos := 11; verstappenPos := 1; piastriPos := 11 |}.
Proof.
  eapply (proj1 (@findWinningScenarios_no_clash codePointCollation
                   sampleRoster "verstappen" _ _)).
  Unshelve.
  3: { vm_compute. reflexivity. }
  apply (bool_decide_unpack _). vm_compute. reflexivity.
Defined.

Lemma findWinningScenarios_sweep_order_witness :
  ∃ l, @findWinningScenarios codePointCollation sampleRoster "piastri"
         = Some l
       ∧ l ≠ []
       ∧ StronglySorted sweepBefore l.
Proof.
  eexists. split; [vm_compute; reflexivity |]. split; [done |].
  apply (@findWinningScenarios_sweep_order codePointCollation sampleRoster
           "piastri").
  vm_compute. reflexivity.
Defined.

(** C7, as the claim has it, fails for Verstappen on the sample roster:
    (8, 2, 3) is returned before (9, 1, 2), where his position goes down
    from 2 to 1. *)
Lemma findWinningScenarios_not_target_first :
  ∃ l, @findWinningScenarios codePointCollation sampleRoster "verstappen"
         = Some l
       ∧ l !! 45%nat =
           Some {| norrisPos := 8; verstappenPos := 2; piastriPos := 3 |}
       ∧ l !! 53%nat =
           Some {| norrisPos := 9; verstappenPos := 1; piastriPos := 2 |}
       ∧ ¬ StronglySorted (targetFirstBefore "verstappen") l.
Proof.
  eexists. split; [vm_compute; reflexivity |].
  split; [reflexivity |]. split; [reflexivity |].
  intros Hsorted.
  pose proof (StronglySorted_lookup_lt _ _ 45 53 _ _ Hsorted
                eq_refl eq_refl ltac:(lia)) as Hbad.
  vm_compute in Hbad. destruct Hbad as [Hbad | [Hbad _]]; discriminate Hbad.
Qed.

Lemma groupScenarios_one_group_per_position_witness :
  "norris" ∈ contenderIds
  ∧ ∃ ks : list Z,
      position <$> groupScenarios "norris" sampleBucket =
        (λ k, displayOf (Some k)) <$> ks
      ∧ StronglySorted Z.lt ks
      ∧ (∀ k, k ∈ ks ↔
              ∃ sc, sc ∈ sampleBucket
                    ∧ scenario_get sc ("norris" +:+ "Pos") = Some k)
      ∧ (λ k, displayOf (Some k)) <$> seqZ 1 11 =
          ["P1"; "P2"; "P3"; "P4"; "P5"; "P6"; "P7"; "P8"; "P9"; "P10";
           "No Points"].
Proof.
  assert ("norris" ∈ contenderIds) as Hid by constructor.
  split; [exact Hid |].
  apply (groupScenarios_one_group_per_position "norris" sampleBucket Hid).
Defined.

Lemma groupScenarios_bucket_description_witness :
  ∃ best : string → Z,
    (∀ r, r ∈ rivals "norris" →
          isBest (best r) (positionsOf r sampleBucket))
    ∧ {| position := "P1";
         description :=
           String.concat " AND <br>"
             ((λ r, capitalize r +:+ " finishes " +:+
                    displayOf (Some (best r)) +:+ " or lower")
                <$> rivals "norris") |}
      ∈ groupScenarios "norris" sampleBucket.
Proof.
  apply (proj1 groupScenarios_bucket_description "norris" sampleBucket 1).
  - constructor.
  - apply (bool_decide_unpack _). vm_compute. reflexivity.
  - discriminate.
Defined.

(** C8, as the claim has it, fails on the bucket of its own example: the
    constraints are joined by " AND <br>", not by " AND ". *)
Lemma groupScenarios_description_not_plain_AND :
  description <$> groupScenarios "norris" sampleBucket =
    ["Verstappen finishes P4 or lower AND <br>Piastri finishes P5 or lower"]
  ∧ description <$> groupScenarios "norris" sampleBucket ≠
      ["Verstappen finishes P4 or lower AND Piastri finishes P5 or lower"].
Proof.
  split; [by vm_compute |]. vm_compute. discriminate.
Qed.

(** * Further properties *)

(** ** The result calculator: what a finish can add *)

Lemma racePoints_range d finishingPos :
  0 ≤ racePoints (calculateDriverResult d finishingPos) ≤ 25.
Proof.
  destruct finishingPos as [p |]; [| cbn; lia].
  rewrite racePoints_gate. case_decide as Hp; [| lia].
  assert (p = 1 ∨ p = 2 ∨ p = 3 ∨ p = 4 ∨ p = 5 ∨
          p = 6 ∨ p = 7 ∨ p = 8 ∨ p = 9 ∨ p = 10) as Hcases by lia.
  repeat (destruct Hcases as [-> | Hcases]; [by vm_compute |]).
  subst p. by vm_compute.
Qed.

(** X1.  A finish never lowers a total: it adds between 0 and 25 points, at
    most one win and at most one podium, and a win always comes with a
    podium. *)
Theorem calculateDriverResult_only_adds (d : Driver)
    (finishingPos : option Z) :
  let r := calculateDriverResult d finishingPos in
  points d ≤ finalPoints r ≤ points d + 25
  ∧ wins d ≤ finalWins r ≤ wins d + 1
  ∧ podiums d ≤ finalPodiums r ≤ podiums d + 1
  ∧ (finalWins r = wins d + 1 → finalPodiums r = podiums d + 1).
Proof.
  intros r. subst r.
  pose proof (racePoints_range d finishingPos) as Hrace.
  split.
  { change (finalPoints (calculateDriverResult d finishingPos))
      with (points d + racePoints (calculateDriverResult d finishingPos)).
    lia. }
  cbn [calculateDriverResult finalWins finalPodiums].
  destruct finishingPos as [p |].
  - destruct (Z.leb_spec p 3); case_decide; simplify_eq; lia.
  - case_decide as Hwin; [discriminate Hwin | lia].
Qed.

Lemma racePoints_antitone d p q :
  1 ≤ p → p ≤ q →
  racePoints (calculateDriverResult d (Some q)) ≤
    racePoints (calculateDriverResult d (Some p)).
Proof.
  intros Hp Hpq. rewrite !racePoints_gate.
  case_decide as Hq'; [| case_decide; [| lia]].
  - rewrite decide_True by lia.
    assert (q = 1 ∨ q = 2 ∨ q = 3 ∨ q = 4 ∨ q = 5 ∨
            q = 6 ∨ q = 7 ∨ q = 8 ∨ q = 9 ∨ q = 10) as Hq by lia.
    assert (p = 1 ∨ p = 2 ∨ p = 3 ∨ p = 4 ∨ p = 5 ∨
            p = 6 ∨ p = 7 ∨ p = 8 ∨ p = 9 ∨ p = 10) as Hcases by lia.
    repeat (destruct Hcases as [-> | Hcases];
            [repeat (destruct Hq as [-> | Hq]; [try lia; by vm_compute |]);
             subst q; try lia; by vm_compute |]).
    subst p.
    repeat (destruct Hq as [-> | Hq]; [try lia; by vm_compute |]).
    subst q. by vm_compute.
  - pose proof (racePoints_range d (Some p)) as Hrange.
    rewrite racePoints_gate, decide_True in Hrange by lia. lia.
Qed.

Lemma worse_finish_gives_no_more (d : Driver) (p q : Z) :
  1 ≤ p → p ≤ q →
  let better := calculateDriverResult d (Some p) in
  let worse := calculateDriverResult d (Some q) in
  let none := calculateDriverResult d None in
  (finalPoints worse ≤ finalPoints better
   ∧ finalWins worse ≤ finalWins better
   ∧ finalPodiums worse ≤ finalPodiums better)
  ∧ (finalPoints none ≤ finalPoints worse
     ∧ finalWins none ≤ finalWins worse
     ∧ finalPodiums none ≤ finalPodiums worse).
Proof.
  intros Hp Hpq better worse none.
  subst better worse none.
  pose proof (racePoints_antitone d p q Hp Hpq) as Hrace.
  pose proof (racePoints_range d (Some q)) as Hq.
  change (finalPoints (calculateDriverResult d (Some q)))
    with (points d + racePoints (calculateDriverResult d (Some q))).
  change (finalPoints (calculateDriverResult d (Some p)))
    with (points d + racePoints (calculateDriverResult d (Some p))).
  change (finalPoints (calculateDriverResult d None)) with (points d + 0).
  set (rq := racePoints (calculateDriverResult d (Some q))) in *.
  set (rp := racePoints (calculateDriverResult d (Some p))) in *.
  clearbody rq rp.
  cbn [calculateDriverResult finalWins finalPodiums].
  destruct (Z.leb_spec p 3), (Z.leb_spec q 3);
    repeat case_decide; simplify_eq; try lia;
    exfalso;
    match goal with Hne : Some ?x ≠ Some 1 |- _ => apply Hne; f_equal; lia end.
Qed.

(** X2.  From position 1 on, a worse finish never gives more: not more points,
    not more wins, not more podiums; and no points ([null]) gives no more
    than any finish from 1 on. *)
Theorem calculateDriverResult_worse_finish (d : Driver) (p q : Z) :
  1 ≤ p → p ≤ q →
  let better := calculateDriverResult d (Some p) in
  let worse := calculateDriverResult d (Some q) in
  let none := calculateDriverResult d None in
  (finalPoints worse ≤ finalPoints better
   ∧ finalWins worse ≤ finalWins better
   ∧ finalPodiums worse ≤ finalPodiums better)
  ∧ (finalPoints none ≤ finalPoints worse
     ∧ finalWins none ≤ finalWins worse
     ∧ finalPodiums none ≤ finalPodiums worse).
Proof. exact (worse_finish_gives_no_more d p q). Qed.

(** ** The standings engine, whatever the collation *)

Lemma notBehind_trans a b c : notBehind a b → notBehind b c → notBehind a c.
Proof. unfold notBehind, ahead, level. lia. Qed.

Lemma ahead_notBehind_trans a b c : ahead a b → notBehind b c → ahead a c.
Proof. unfold notBehind, ahead, level. lia. Qed.

Lemma ahead_not_notBehind a b : ahead a b → notBehind b a → False.
Proof. unfold notBehind, ahead, level. lia. Qed.

Lemma notBehind_not_level_ahead a b : notBehind a b → ¬ level a b → ahead a b.
Proof. unfold notBehind. tauto. Qed.

Lemma array_insert_sorted_rel {A} (cmp : A → A → Z) (R : relation A) x l :
  (∀ a b, cmp a b ≤ 0 → R a b) →
  (∀ a b, 0 < cmp a b → R b a) →
  Transitive R →
  StronglySorted R l → StronglySorted R (array_insert cmp x l).
Proof.
  intros Hle Hgt Htrans Hsorted.
  induction Hsorted as [| y l Hl IH Hy]; cbn.
  { repeat constructor. }
  destruct (Z.leb_spec (cmp x y) 0) as [Hxy | Hxy].
  - constructor; [by constructor |].
    constructor; [by apply Hle |].
    eapply Forall_impl; [exact Hy |]. intros z Hz.
    by etrans; [apply Hle |].
  - constructor; [done |].
    rewrite array_insert_Permutation. constructor; [by apply Hgt | done].
Qed.

Lemma array_sort_sorted_rel {A} (cmp : A → A → Z) (R : relation A) l :
  (∀ a b, cmp a b ≤ 0 → R a b) →
  (∀ a b, 0 < cmp a b → R b a) →
  Transitive R →
  StronglySorted R (array_sort cmp l).
Proof.
  intros Hle Hgt Htrans. induction l as [| x l IH]; [constructor |].
  rewrite array_sort_cons. by apply array_insert_sorted_rel.
Qed.

Lemma array_sort_of_sorted {A} (cmp : A → A → Z) l :
  StronglySorted (λ a b, cmp a b ≤ 0) l → array_sort cmp l = l.
Proof.
  induction 1 as [| x l Hl IH Hx]; [done |].
  rewrite array_sort_cons, IH.
  destruct Hx as [| y l Hxy _]; [done |].
  cbn. by destruct (Z.leb_spec (cmp x y) 0); [| lia].
Qed.

Section standings_any_collation.
Context `{Collation}.

Lemma compareStandings_le_notBehind a b :
  compareStandings a b ≤ 0 → notBehind a b.
Proof.
  pose proof (ahead_level_exclusive a b) as (? & ? & ?).
  destruct (compareStandings_cases a b) as [[? ?] | [[? ?] | [? ?]]];
    unfold notBehind; intros; (tauto || lia).
Qed.

Lemma compareStandings_gt_notBehind a b :
  0 < compareStandings a b → notBehind b a.
Proof.
  destruct (compareStandings_cases a b) as [[? ?] | [[? ?] | [? ?]]];
    unfold notBehind; intros; try lia; auto using level_sym.
Qed.

Lemma sortStandings_notBehind (results : list EnrichedResult) :
  sortStandings results ≡ₚ results
  ∧ length (sortStandings results) = length results
  ∧ StronglySorted notBehind (sortStandings results).
Proof.
  split; [apply sortStandings_Permutation |].
  split; [apply array_sort_length |].
  apply array_sort_sorted_rel.
  - apply compareStandings_le_notBehind.
  - apply compareStandings_gt_notBehind.
  - intros a b c. apply notBehind_trans.
Qed.

(** X3.  Whatever [localeCompare] answers, the standings hold the same
    results as the input, each once more, and nobody stands before a
    result that is ahead on points, wins and podiums. *)
Theorem sortStandings_keys_descending (results : list EnrichedResult) :
  sortStandings results ≡ₚ results
  ∧ length (sortStandings results) = length results
  ∧ StronglySorted notBehind (sortStandings results).
Proof. exact (sortStandings_notBehind results). Qed.

Lemma champion_of_standings (results : list EnrichedResult) :
  let o := determineChampion (sortStandings results) in
  (champion o = None ↔ results = [])
  ∧ (∀ c, champion o = Some c →
          c ∈ results ∧ ∀ r, r ∈ results → notBehind c r)
  ∧ (∀ c, champion o = Some c → isTie o = false →
          ∃ rest, sortStandings results = c :: rest
                  ∧ Forall (ahead c) rest)
  ∧ (isTie o = true →
       ∃ c s, champion o = Some c ∧ second o = Some s ∧ level c s).
Proof.
  destruct (sortStandings_notBehind results)
    as (Hperm & Hlen & Hsorted).
  destruct (sortStandings results) as [| c [| s rest]] eqn:Hstand; cbn.
  - destruct results; [| done]. repeat split; try done.
  - destruct results as [| r results]; [done |].
    split; [done |]. split; [| split; [| done]].
    + intros ? [= <-]. split; [rewrite <- Hperm; constructor |].
      intros r' Hr'. rewrite <- Hperm in Hr'.
      apply list_elem_of_singleton in Hr' as ->.
      right. unfold level. lia.
    + intros ? [= <-] _. exists []. by split.
  - destruct results as [| r results]; [done |].
    apply StronglySorted_inv in Hsorted as [Hsorted Hc].
    apply StronglySorted_inv in Hsorted as [_ Hs].
    apply Forall_cons in Hc as [Hcs Hc].
    split; [done |]. split; [| split].
    + intros ? [= <-]. split; [rewrite <- Hperm; constructor |].
      intros r' Hr'. rewrite <- Hperm in Hr'.
      apply elem_of_cons in Hr' as [-> | Hr'].
      * right. unfold level. lia.
      * rewrite Forall_forall in Hc.
        apply elem_of_cons in Hr' as [-> | Hr']; [done | by apply Hc].
    + intros ? [= <-] Htie. exists (s :: rest). split; [done |].
      assert (ahead c s) as Hahead.
      { apply notBehind_not_level_ahead; [done |].
        intros (Hp & Hw & Hd).
        rewrite Hp, Hw, Hd, !Z.eqb_refl in Htie. discriminate Htie. }
      constructor; [done |].
      eapply Forall_impl; [exact Hs |]. intros z Hz.
      by eapply ahead_notBehind_trans.
    + intros Htie. exists c, s. split; [done |]. split; [done |].
      revert Htie. rewrite !andb_true_iff, !Z.eqb_eq. unfold level. tauto.
Qed.

(** X4.  The champion of the standings is behind nobody; when no tie is
    reported every other result is strictly behind the champion; a
    reported tie is a champion and a second level on the three keys; with
    no results there is no champion. *)
Theorem determineChampion_of_standings (results : list EnrichedResult) :
  let o := determineChampion (sortStandings results) in
  (champion o = None ↔ results = [])
  ∧ (∀ c, champion o = Some c →
          c ∈ results ∧ ∀ r, r ∈ results → notBehind c r)
  ∧ (∀ c, champion o = Some c → isTie o = false →
          ∃ rest, sortStandings results = c :: rest
                  ∧ Forall (ahead c) rest)
  ∧ (isTie o = true →
       ∃ c s, champion o = Some c ∧ second o = Some s ∧ level c s).
Proof. exact (champion_of_standings results). Qed.

Context `{!CollationLaws}.

(** X5.  Sorting standings again changes nothing. *)
Theorem sortStandings_idempotent (results : list EnrichedResult) :
  sortStandings (sortStandings results) = sortStandings results.
Proof.
  apply array_sort_of_sorted.
  apply (array_sort_sorted _ (λ _, True));
    eauto using compareStandings_total, compareStandings_trans.
  by apply Forall_true.
Qed.
End standings_any_collation.

(** ** The scenario search: which combinations are returned *)

Section sole_champion.
Context `{Collation}.

Lemma sortStandings_head c rest results :
  results ≡ₚ c :: rest → Forall (ahead c) rest →
  ∃ rest', sortStandings results = c :: rest' ∧ rest' ≡ₚ rest.
Proof.
  intros Hperm Hahead.
  destruct (sortStandings_notBehind results) as (Hsort & _ & Hsorted).
  assert (sortStandings results ≡ₚ c :: rest) as Hsort' by by etrans.
  clear Hsort. rename Hsort' into Hsort.
  destruct (sortStandings results) as [| x rest'].
  { by apply Permutation_nil_cons in Hsort. }
  destruct (decide (x = c)) as [-> | Hne].
  { exists rest'. split; [done |]. by apply (inj (c ::.)). }
  exfalso.
  assert (x ∈ rest) as Hx.
  { assert (x ∈ c :: rest) as [? | ?]%elem_of_cons; [| done | done].
    rewrite <- Hsort. constructor. }
  assert (c ∈ rest') as Hc.
  { assert (c ∈ x :: rest') as [? | ?]%elem_of_cons; [| done | done].
    rewrite Hsort. constructor. }
  apply StronglySorted_inv in Hsorted as [_ Hx'].
  rewrite Forall_forall in Hahead, Hx'.
  eapply ahead_not_notBehind; [by apply Hahead | by apply Hx'].
Qed.

Lemma sole_champion_head c rest results :
  results ≡ₚ c :: rest → Forall (ahead c) rest →
  champion (determineChampion (sortStandings results)) = Some c
  ∧ isTie (determineChampion (sortStandings results)) = false.
Proof.
  intros Hperm Hahead.
  destruct (sortStandings_head c rest results Hperm Hahead)
    as (rest' & Hsort & Hrest).
  destruct (champion_of_standings results) as (_ & _ & _ & Htie).
  cbn zeta in Htie. rewrite Hsort in Htie |- *.
  assert (champion (determineChampion (c :: rest')) = Some c) as Hc.
  { by destruct rest'. }
  split; [done |].
  destruct (isTie (determineChampion (c :: rest'))) eqn:Hb; [| done].
  destruct (Htie eq_refl) as (c' & s & Hc' & Hs & Hlevel).
  rewrite Hc in Hc'. injection Hc' as <-.
  assert (s ∈ rest) as Hin.
  { rewrite <- Hrest. destruct rest' as [| s' rest'']; [done |].
    cbn in Hs. injection Hs as <-. constructor. }
  rewrite Forall_forall in Hahead. specialize (Hahead s Hin).
  destruct (ahead_level_exclusive c s) as (_ & Hex & _). tauto.
Qed.

Lemma sole_of_three a b c targetId :
  let o := determineChampion (sortStandings [a; b; c]) in
  (∃ w, champion o = Some w ∧ id (base w) = targetId ∧ isTie o = false) ↔
    (id (base a) = targetId ∧ ahead a b ∧ ahead a c)
    ∨ (id (base b) = targetId ∧ ahead b a ∧ ahead b c)
    ∨ (id (base c) = targetId ∧ ahead c a ∧ ahead c b).
Proof.
  intros o. subst o. split.
  - intros (w & Hw & Hid & Htie).
    destruct (champion_of_standings [a; b; c])
      as (_ & _ & Hsole & _).
    destruct (Hsole w Hw Htie) as (rest & Hsort & Hahead).
    pose proof (sortStandings_Permutation [a; b; c]) as Hperm.
    rewrite Hsort in Hperm.
    assert (w ∈ [a; b; c]) as Hin by (rewrite <- Hperm; constructor).
    rewrite !elem_of_cons, elem_of_nil in Hin.
    destruct Hin as [-> | [-> | [-> | []]]].
    + left. apply (inj (a ::.)) in Hperm. rewrite Hperm in Hahead.
      apply Forall_cons in Hahead as [? [? _]%Forall_cons]. done.
    + right. left.
      assert (b :: rest ≡ₚ b :: [a; c]) as Hperm'
        by (etrans; [exact Hperm | apply Permutation_swap]).
      apply (inj (b ::.)) in Hperm'. rewrite Hperm' in Hahead.
      apply Forall_cons in Hahead as [? [? _]%Forall_cons]. done.
    + right. right.
      assert (c :: rest ≡ₚ c :: [a; b]) as Hperm'
        by (etrans; [exact Hperm |];
            by rewrite (Permutation_cons_append [a; b] c)).
      apply (inj (c ::.)) in Hperm'. rewrite Hperm' in Hahead.
      apply Forall_cons in Hahead as [? [? _]%Forall_cons]. done.
  - intros [(Hid & H1 & H2) | [(Hid & H1 & H2) | (Hid & H1 & H2)]].
    + exists a.
      destruct (sole_champion_head a [b; c] [a; b; c]) as [? ?];
        [done | by apply Forall_cons_2; [| apply Forall_cons_2] | done].
    + exists b.
      destruct (sole_champion_head b [a; c] [a; b; c]) as [? ?];
        [apply Permutation_swap | by apply Forall_cons_2; [| apply Forall_cons_2] | done].
    + exists c.
      destruct (sole_champion_head c [a; b] [a; b; c]) as [? ?];
        [by rewrite (Permutation_cons_append [a; b] c)
        | by apply Forall_cons_2; [| apply Forall_cons_2] | done].
Qed.
End sole_champion.

Lemma finishOf_worse d p q :
  1 ≤ p → p ≤ q →
  finalPoints (calculateDriverResult d (finishOf q)) ≤
    finalPoints (calculateDriverResult d (finishOf p))
  ∧ finalWins (calculateDriverResult d (finishOf q)) ≤
      finalWins (calculateDriverResult d (finishOf p))
  ∧ finalPodiums (calculateDriverResult d (finishOf q)) ≤
      finalPodiums (calculateDriverResult d (finishOf p)).
Proof.
  intros Hp Hpq. unfold finishOf.
  destruct (Z.gtb_spec q 10), (Z.gtb_spec p 10); try lia.
  - apply (worse_finish_gives_no_more d p p); lia.
  - apply (worse_finish_gives_no_more d p q); lia.
Qed.

Lemma ahead_of_worse a b b' :
  ahead a b →
  finalPoints b' ≤ finalPoints b → finalWins b' ≤ finalWins b →
  finalPodiums b' ≤ finalPodiums b →
  ahead a b'.
Proof. unfold ahead. lia. Qed.

Lemma StronglySorted_irrefl_NoDup {A} (R : relation A) l :
  (∀ x, ¬ R x x) → StronglySorted R l → NoDup l.
Proof.
  intros Hirr. induction 1 as [| x l Hl IH Hx]; constructor; [| done].
  rewrite Forall_forall in Hx. intros Hin. by apply (Hirr x), Hx.
Qed.

Section search.
Context `{Collation} `{Roster}.

(** X6.  The search returns a list exactly when the roster has three
    contenders or more; with fewer it throws. *)
Theorem findWinningScenarios_returns_iff (targetId : string) :
  (is_Some (findWinningScenarios targetId) ↔ (3 ≤ length contenders)%nat)
  ∧ (findWinningScenarios targetId = None ↔ (length contenders < 3)%nat).
Proof.
  destruct (decide (3 ≤ length contenders)%nat) as [Hthree | Hfew].
  - rewrite (findWinningScenarios_filters_sweep Hthree). split.
    + split; [done | by eexists].
    + split; [done | lia].
  - rewrite findWinningScenarios_throws by lia. split.
    + split; [by intros [? ?] | lia].
    + split; [lia | done].
Qed.

Section three.
Context (n v p : Driver).
Context (Hn : norris = Some n) (Hv : verstappen = Some v)
        (Hp : piastri = Some p).

Lemma soleChampion_ahead targetId sc :
  let resN := calculateDriverResult n (finishOf (norrisPos sc)) in
  let resV := calculateDriverResult v (finishOf (verstappenPos sc)) in
  let resP := calculateDriverResult p (finishOf (piastriPos sc)) in
  soleChampion targetId sc ↔
    (id n = targetId ∧ ahead resN resV ∧ ahead resN resP)
    ∨ (id v = targetId ∧ ahead resV resN ∧ ahead resV resP)
    ∨ (id p = targetId ∧ ahead resP resN ∧ ahead resP resV).
Proof.
  intros resN resV resP.
  pose proof (sole_of_three resN resV resP targetId) as Hthree.
  cbn zeta in Hthree.
  change (id (base resN)) with (id n) in Hthree.
  change (id (base resV)) with (id v) in Hthree.
  change (id (base resP)) with (id p) in Hthree.
  rewrite <- Hthree.
  unfold soleChampion, scenarioOutcome. rewrite Hn, Hv, Hp.
  cbn [mbind option_bind]. split.
  - intros (o & c & [= <-] & Hc & Hid & Htie). by exists c.
  - intros (c & Hc & Hid & Htie). by eexists _, c.
Qed.

Lemma elem_of_findWinningScenarios (targetId : string)
    (l : list Scenario) (sc : Scenario) :
  findWinningScenarios targetId = Some l →
  let resN := calculateDriverResult n (finishOf (norrisPos sc)) in
  let resV := calculateDriverResult v (finishOf (verstappenPos sc)) in
  let resP := calculateDriverResult p (finishOf (piastriPos sc)) in
  sc ∈ l ↔
    inSearchSpace sc ∧ ¬ scoringClash sc
    ∧ ((id n = targetId ∧ ahead resN resV ∧ ahead resN resP)
       ∨ (id v = targetId ∧ ahead resV resN ∧ ahead resV resP)
       ∨ (id p = targetId ∧ ahead resP resN ∧ ahead resP resV)).
Proof.
  intros [_ ->]%findWinningScenarios_returns resN resV resP.
  rewrite list_elem_of_filter, elem_of_sweep, winsTitle_soleChampion.
  rewrite soleChampion_ahead. tauto.
Qed.

(** X7.  With contenders [n], [v], [p], the scenarios returned for a target
    are exactly the combinations of positions 1..11 without a scoring
    clash in which a contender with the target's id is strictly ahead of
    the other two on final points, then wins, then podiums. *)
Theorem findWinningScenarios_exactly (targetId : string)
    (l : list Scenario) (sc : Scenario) :
  findWinningScenarios targetId = Some l →
  let resN := calculateDriverResult n (finishOf (norrisPos sc)) in
  let resV := calculateDriverResult v (finishOf (verstappenPos sc)) in
  let resP := calculateDriverResult p (finishOf (piastriPos sc)) in
  sc ∈ l ↔
    inSearchSpace sc ∧ ¬ scoringClash sc
    ∧ ((id n = targetId ∧ ahead resN resV ∧ ahead resN resP)
       ∨ (id v = targetId ∧ ahead resV resN ∧ ahead resV resP)
       ∨ (id p = targetId ∧ ahead resP resN ∧ ahead resP resV)).
Proof. exact (elem_of_findWinningScenarios targetId l sc). Qed.

(** X8.  A win survives when rivals do worse.  If a scenario is returned,
    so is every combination of positions 1..11 without a scoring clash in
    which the contenders with the target's id keep their position and the
    others finish where they were or lower. *)
Theorem findWinningScenarios_rivals_worse (targetId : string)
    (l : list Scenario) (sc sc' : Scenario) :
  findWinningScenarios targetId = Some l →
  sc ∈ l →
  inSearchSpace sc' → ¬ scoringClash sc' →
  norrisPos sc ≤ norrisPos sc' →
  verstappenPos sc ≤ verstappenPos sc' →
  piastriPos sc ≤ piastriPos sc' →
  (id n = targetId → norrisPos sc' = norrisPos sc) →
  (id v = targetId → verstappenPos sc' = verstappenPos sc) →
  (id p = targetId → piastriPos sc' = piastriPos sc) →
  sc' ∈ l.
Proof.
  intros Hl Hsc Hspace' Hclash' HN HV HP HidN HidV HidP.
  apply (elem_of_findWinningScenarios targetId l sc' Hl).
  apply (elem_of_findWinningScenarios targetId l sc Hl) in Hsc
    as (Hspace & _ & Hwin).
  split; [done |]. split; [done |].
  destruct Hspace as (? & ? & ?).
  destruct (finishOf_worse n (norrisPos sc) (norrisPos sc'))
    as (HN1 & HN2 & HN3); [lia | lia |].
  destruct (finishOf_worse v (verstappenPos sc) (verstappenPos sc'))
    as (HV1 & HV2 & HV3); [lia | lia |].
  destruct (finishOf_worse p (piastriPos sc) (piastriPos sc'))
    as (HP1 & HP2 & HP3); [lia | lia |].
  destruct Hwin as [(Hid & Ha1 & Ha2) | [(Hid & Ha1 & Ha2)
                                         | (Hid & Ha1 & Ha2)]].
  - left. rewrite (HidN Hid). split; [done |].
    split; [exact (ahead_of_worse _ _ _ Ha1 HV1 HV2 HV3)
           | exact (ahead_of_worse _ _ _ Ha2 HP1 HP2 HP3)].
  - right. left. rewrite (HidV Hid). split; [done |].
    split; [exact (ahead_of_worse _ _ _ Ha1 HN1 HN2 HN3)
           | exact (ahead_of_worse _ _ _ Ha2 HP1 HP2 HP3)].
  - right. right. rewrite (HidP Hid). split; [done |].
    split; [exact (ahead_of_worse _ _ _ Ha1 HN1 HN2 HN3)
           | exact (ahead_of_worse _ _ _ Ha2 HV1 HV2 HV3)].
Qed.

(** X9.  A target whose id none of the three contenders has wins nothing:
    the search returns the empty list. *)
Theorem findWinningScenarios_unknown_target (targetId : string) :
  id n ≠ targetId → id v ≠ targetId → id p ≠ targetId →
  findWinningScenarios targetId = Some [].
Proof.
  intros HidN HidV HidP.
  assert (3 ≤ length contenders)%nat as Hthree.
  { unfold norris, verstappen, piastri in *.
    destruct contenders as [| ? [| ? [| ? ?]]]; cbn in *; (done || lia). }
  pose proof (findWinningScenarios_filters_sweep Hthree targetId) as Hl.
  rewrite Hl. f_equal. apply elem_of_nil_inv. intros sc Hsc.
  apply (elem_of_findWinningScenarios targetId _ sc Hl) in Hsc
    as (_ & _ & Hwin).
  tauto.
Qed.
End three.

(** X10.  No scenario is returned twice, and no list is longer than the
    1021 combinations the sweep reaches. *)
Theorem findWinningScenarios_no_repeat (targetId : string)
    (l : list Scenario) :
  findWinningScenarios targetId = Some l →
  NoDup l ∧ (length l ≤ 1021)%nat.
Proof.
  intros [_ ->]%findWinningScenarios_returns. split.
  - apply (StronglySorted_irrefl_NoDup sweepBefore).
    + intros x. unfold sweepBefore. lia.
    + apply StronglySorted_filter, sweep_sorted.
  - etrans; [apply length_filter |]. by vm_compute.
Qed.

(** X11.  A scenario is a win for one target at most: the lists of two
    different targets share no scenario. *)
Theorem findWinningScenarios_one_winner (target1 target2 : string)
    (l1 l2 : list Scenario) (sc : Scenario) :
  findWinningScenarios target1 = Some l1 →
  findWinningScenarios target2 = Some l2 →
  target1 ≠ target2 →
  sc ∈ l1 → sc ∉ l2.
Proof.
  intros [_ ->]%findWinningScenarios_returns
    [_ ->]%findWinningScenarios_returns Hne
    [(o1 & c1 & Ho1 & Hc1 & <- & _)%winsTitle_soleChampion _]
      %list_elem_of_filter
    [(o2 & c2 & Ho2 & Hc2 & <- & _)%winsTitle_soleChampion _]
      %list_elem_of_filter.
  apply Hne. congruence.
Qed.
End search.

(** ** Grouping: empty input, unknown ids, order of the input *)

Lemma string_length_app s1 s2 :
  String.length (s1 +:+ s2) = (String.length s1 + String.length s2)%nat.
Proof.
  induction s1 as [| c s1 IH]; [done |].
  change (String c s1 +:+ s2) with (String c (s1 +:+ s2)).
  cbn. by rewrite IH.
Qed.

Lemma string_app_inv_tail s1 s2 s : s1 +:+ s = s2 +:+ s → s1 = s2.
Proof.
  revert s2. induction s1 as [| c1 s1 IH]; intros [| c2 s2] Heq.
  - done.
  - apply (f_equal String.length) in Heq.
    rewrite !string_length_app in Heq. cbn in Heq. lia.
  - apply (f_equal String.length) in Heq.
    rewrite !string_length_app in Heq. cbn in Heq. lia.
  - change (String c1 (s1 +:+ s) = String c2 (s2 +:+ s)) in Heq.
    injection Heq as -> Heq. f_equal. by apply IH.
Qed.

Lemma scenario_get_unknown id sc :
  id ∉ contenderIds → scenario_get sc (id +:+ "Pos") = None.
Proof.
  intros Hid. unfold scenario_get.
  destruct (String.eqb_spec (id +:+ "Pos") "norrisPos") as [Heq | _].
  { exfalso. apply Hid.
    apply (string_app_inv_tail id "norris" "Pos") in Heq as ->.
    left. }
  destruct (String.eqb_spec (id +:+ "Pos") "verstappenPos") as [Heq | _].
  { exfalso. apply Hid.
    apply (string_app_inv_tail id "verstappen" "Pos") in Heq as ->.
    right. left. }
  destruct (String.eqb_spec (id +:+ "Pos") "piastriPos") as [Heq | _].
  { exfalso. apply Hid.
    apply (string_app_inv_tail id "piastri" "Pos") in Heq as ->.
    right. right. left. }
  done.
Qed.

Lemma filter_all {A} (P : A → Prop) `{!∀ x, Decision (P x)} l :
  Forall P l → filter P l = l.
Proof.
  induction 1 as [| x l Hx _ IH]; [done |].
  by rewrite filter_cons_True, IH.
Qed.

Lemma relax_comm sc1 sc2 id v :
  relax sc1 id (relax sc2 id v) = relax sc2 id (relax sc1 id v).
Proof.
  unfold relax.
  destruct (scenario_get sc1 (id +:+ "Pos")),
    (scenario_get sc2 (id +:+ "Pos")), v; try done.
  f_equal. lia.
Qed.

Lemma bestPos_Permutation id l1 l2 : l1 ≡ₚ l2 → bestPos id l1 = bestPos id l2.
Proof.
  intros Hperm. unfold bestPos. generalize (Some 99).
  induction Hperm as [| x l1 l2 _ IH | x y l | l1 l2 l3 _ IH1 _ IH2];
    intros v; cbn [foldl].
  - done.
  - apply IH.
  - by rewrite relax_comm.
  - by rewrite IH1.
Qed.

Lemma summarizeConstraints_Permutation l1 l2 otherIds :
  NoDup otherIds → l1 ≡ₚ l2 →
  summarizeConstraints l1 otherIds = summarizeConstraints l2 otherIds.
Proof.
  intros Hnodup Hperm. rewrite !summarizeConstraints_bestPos by done.
  f_equal. apply list_fmap_ext. intros _ id _.
  by rewrite (bestPos_Permutation id l1 l2).
Qed.

Lemma groupScenarios_length targetId scenarios :
  length (groupScenarios targetId scenarios) =
    length (map_to_list (foldl (pushScenario targetId) ∅ scenarios)).*1.
Proof.
  unfold groupScenarios. by rewrite length_fmap, array_sort_length.
Qed.

(** X12.  Whatever the target id, there are no groups exactly when there are
    no scenarios. *)
Theorem groupScenarios_empty_iff (targetId : string)
    (scenarios : list Scenario) :
  groupScenarios targetId scenarios = [] ↔ scenarios = [].
Proof.
  split.
  - intros Hnil. destruct scenarios as [| sc scenarios]; [done |].
    exfalso.
    assert (scenario_get sc (targetId +:+ "Pos") ∈
              (map_to_list
                 (foldl (pushScenario targetId) ∅ (sc :: scenarios))).*1)
      as Hin.
    { apply byTargetPos_keys. exists sc. split; [constructor | done]. }
    apply (f_equal length) in Hnil.
    rewrite groupScenarios_length in Hnil.
    destruct ((map_to_list _).*1); [by apply elem_of_nil in Hin | done].
  - intros ->. apply length_zero_iff_nil.
    rewrite groupScenarios_length. cbn [foldl].
    by rewrite map_to_list_empty.
Qed.

Lemma groupScenarios_one_undefined_group (targetId : string)
    (scenarios : list Scenario) :
  targetId ∉ contenderIds → scenarios ≠ [] →
  groupScenarios targetId scenarios =
    [ {| position := "Pundefined";
         description := summarizeConstraints scenarios contenderIds |} ].
Proof.
  intros Hid Hne. unfold groupScenarios.
  set (byTargetPos := foldl (pushScenario targetId) ∅ scenarios).
  assert ((map_to_list byTargetPos).*1 = [None]) as ->.
  { pose proof (NoDup_fst_map_to_list byTargetPos) as Hnodup.
    assert (∀ k, k ∈ (map_to_list byTargetPos).*1 ↔ k = None) as Hkeys.
    { intros k. unfold byTargetPos. rewrite byTargetPos_keys. split.
      - intros (sc & _ & <-). by apply scenario_get_unknown.
      - intros ->. destruct scenarios as [| sc ?]; [done |].
        exists sc. split; [constructor | by apply scenario_get_unknown]. }
    destruct ((map_to_list byTargetPos).*1) as [| k1 [| k2 ks]].
    - assert (None ∈ @nil (option Z)) as Hin by by apply Hkeys.
      by apply elem_of_nil in Hin.
    - f_equal. apply Hkeys. constructor.
    - exfalso. apply NoDup_cons in Hnodup as [Hnotin _]. apply Hnotin.
      assert (k1 = None) as -> by (apply Hkeys; constructor).
      assert (k2 = None) as -> by (apply Hkeys; right; constructor).
      constructor. }
  assert (byTargetPos !!! None = scenarios) as Hbucket.
  { unfold byTargetPos. rewrite byTargetPos_lookup_total.
    apply filter_all, Forall_forall. intros sc _.
    by apply scenario_get_unknown. }
  assert (filter (λ id, id ≠ targetId) ["norris"; "verstappen"; "piastri"]
          = contenderIds) as Hothers.
  { apply filter_all, Forall_forall. intros id Hin ->. done. }
  change (array_sort compareKeys [None]) with [@None Z].
  cbn [fmap list_fmap]. by rewrite Hbucket, Hothers.
Qed.

(** X13.  For an id that is none of the three, every scenario lands in one
    group, labelled "Pundefined", whose description constrains all three
    contenders. *)
Theorem groupScenarios_unknown_id (targetId : string)
    (scenarios : list Scenario) :
  targetId ∉ contenderIds → scenarios ≠ [] →
  groupScenarios targetId scenarios =
    [ {| position := "Pundefined";
         description := summarizeConstraints scenarios contenderIds |} ].
Proof. exact (groupScenarios_one_undefined_group targetId scenarios). Qed.

Lemma contenderIds_NoDup : NoDup contenderIds.
Proof. apply (bool_decide_unpack _). by vm_compute. Qed.

Lemma StronglySorted_lt_unique (ks1 ks2 : list Z) :
  StronglySorted Z.lt ks1 → StronglySorted Z.lt ks2 →
  (∀ k, k ∈ ks1 ↔ k ∈ ks2) → ks1 = ks2.
Proof.
  intros Hs1 Hs2 Hsame.
  apply (StronglySorted_unique_strong Z.lt); try done.
  - intros x1 x2 _ _. lia.
  - apply NoDup_Permutation; [| | done];
      apply (StronglySorted_irrefl_NoDup Z.lt); (done || lia).
Qed.

(** X14.  The groups do not depend on the order of the scenarios, whatever
    the target id. *)
Theorem groupScenarios_Permutation (targetId : string)
    (scenarios1 scenarios2 : list Scenario) :
  scenarios1 ≡ₚ scenarios2 →
  groupScenarios targetId scenarios1 = groupScenarios targetId scenarios2.
Proof.
  intros Hperm.
  destruct (decide (targetId ∈ contenderIds)) as [Hid | Hid].
  - destruct (groupScenarios_groups targetId scenarios1 Hid)
      as (ks1 & Hs1 & Hks1 & ->).
    destruct (groupScenarios_groups targetId scenarios2 Hid)
      as (ks2 & Hs2 & Hks2 & ->).
    assert (ks1 = ks2) as ->.
    { apply StronglySorted_lt_unique; try done.
      intros k. rewrite Hks1, Hks2.
      by setoid_rewrite Hperm. }
    apply list_fmap_ext. intros _ k _. f_equal.
    apply summarizeConstraints_Permutation; [apply rivals_NoDup |].
    by rewrite Hperm.
  - destruct scenarios1 as [| sc scenarios1].
    { by apply Permutation_nil in Hperm as ->. }
    rewrite !groupScenarios_one_undefined_group; try done.
    + f_equal. f_equal.
      by apply summarizeConstraints_Permutation, Hperm;
        apply contenderIds_NoDup.
    + intros ->. by apply Permutation_nil_r in Hperm.
Qed.

Lemma displayOf_inj k1 k2 :
  1 ≤ k1 ≤ 11 → 1 ≤ k2 ≤ 11 →
  displayOf (Some k1) = displayOf (Some k2) → k1 = k2.
Proof.
  intros H1 H2.
  assert (k1 = 1 ∨ k1 = 2 ∨ k1 = 3 ∨ k1 = 4 ∨ k1 = 5 ∨ k1 = 6 ∨ k1 = 7
          ∨ k1 = 8 ∨ k1 = 9 ∨ k1 = 10 ∨ k1 = 11) as Hk1 by lia.
  assert (k2 = 1 ∨ k2 = 2 ∨ k2 = 3 ∨ k2 = 4 ∨ k2 = 5 ∨ k2 = 6 ∨ k2 = 7
          ∨ k2 = 8 ∨ k2 = 9 ∨ k2 = 10 ∨ k2 = 11) as Hk2 by lia.
  clear H1 H2.
  repeat (destruct Hk1 as [-> | Hk1]);
    repeat (destruct Hk2 as [-> | Hk2]); subst;
    vm_compute; (reflexivity || discriminate).
Qed.

(** X15.  For a contender's id and scenarios with positions 1..11, there are
    eleven groups at most, their labels are among P1 .. P10 and No Points,
    and no label comes twice. *)
Theorem groupScenarios_labels (targetId : string)
    (scenarios : list Scenario) :
  targetId ∈ contenderIds → Forall inSearchSpace scenarios →
  NoDup (position <$> groupScenarios targetId scenarios)
  ∧ (length (groupScenarios targetId scenarios) ≤ 11)%nat
  ∧ ∀ g, g ∈ groupScenarios targetId scenarios →
         position g ∈ ["P1"; "P2"; "P3"; "P4"; "P5"; "P6"; "P7"; "P8";
                       "P9"; "P10"; "No Points"].
Proof.
  intros Hid Hspace.
  destruct (groupScenarios_groups targetId scenarios Hid)
    as (ks & Hsorted & Hks & ->).
  assert (∀ k, k ∈ ks → 1 ≤ k ≤ 11) as Hrange.
  { intros k (sc & Hsc & Hk)%Hks.
    rewrite Forall_forall in Hspace.
    destruct (Hspace sc Hsc) as (? & ? & ?).
    unfold scenario_get in Hk. repeat case_match; simplify_eq; lia. }
  assert (NoDup ks) as Hnodup.
  { apply (StronglySorted_irrefl_NoDup Z.lt); [lia | done]. }
  split; [| split].
  - rewrite <- list_fmap_compose. apply NoDup_fmap_2_strong; [| done].
    intros k1 k2 Hk1 Hk2. cbn. by apply displayOf_inj; apply Hrange.
  - rewrite length_fmap.
    change 11%nat with (length (seqZ 1 11)).
    apply submseteq_length, NoDup_submseteq; [done |].
    intros k Hk%Hrange. apply elem_of_seqZ. lia.
  - intros g (k & -> & Hk%Hrange)%list_elem_of_fmap. cbn [position].
    change (displayOf (Some k) ∈ (λ k, displayOf (Some k)) <$> seqZ 1 11).
    apply (list_elem_of_fmap_2 (λ k, displayOf (Some k))), elem_of_seqZ.
    lia.
Qed.

(** ** The table: one position per driver *)

Lemma distinctPositions_lookup allSelects :
  distinctPositions allSelects ↔
    ∀ i j x, allSelects !! i = Some (Some x) →
             allSelects !! j = Some (Some x) → i = j.
Proof.
  unfold distinctPositions.
  induction allSelects as [| v l IH].
  { split; [by intros _ i j x | constructor]. }
  assert (∀ x, x ∈ omap (λ v, v) l ↔ ∃ k, l !! k = Some (Some x)) as Hin.
  { intros x. rewrite list_elem_of_omap. split.
    - intros (w & Hw%list_elem_of_lookup & ->). done.
    - intros [k Hk]. exists (Some x).
      split; [by eapply list_elem_of_lookup_2 | done]. }
  destruct v as [x |]; cbn [omap list_omap].
  - rewrite NoDup_cons, IH, Hin. split.
    + intros [Hx Hl] [| i] [| j] y; cbn; intros Hi Hj;
        simplify_eq; eauto.
      * exfalso. eauto.
      * exfalso. eauto.
    + intros Hall. split.
      * intros [k Hk]. by specialize (Hall 0%nat (S k) x eq_refl Hk).
      * intros i j y Hi Hj.
        by specialize (Hall (S i) (S j) y Hi Hj) as [= ->].
  - rewrite IH. split.
    + intros Hl [| i] [| j] y; cbn; intros Hi Hj; simplify_eq; eauto.
    + intros Hall i j y Hi Hj.
      by specialize (Hall (S i) (S j) y Hi Hj) as [= ->].
Qed.

Lemma findConflict_Some changed newValue i allSelects c :
  findConflict changed newValue i allSelects = Some c ↔
    ∃ k, c = (i + k)%nat ∧ c ≠ changed
         ∧ allSelects !! k = Some (Some newValue)
         ∧ ∀ k', (k' < k)%nat → (i + k')%nat ≠ changed →
                 allSelects !! k' ≠ Some (Some newValue).
Proof.
  revert i. induction allSelects as [| v l IH]; intros i; cbn.
  { split; [done | by intros (k & _ & _ & ? & _)]. }
  case_decide as Hhere.
  - destruct Hhere as [Hne ->]. split.
    + intros [= <-]. exists 0%nat.
      split; [lia |]. split; [done |]. split; [done |]. lia.
    + intros (k & -> & Hc & Hk & Hfirst). f_equal.
      destruct k as [| k]; [lia |]. exfalso.
      apply (Hfirst 0%nat); [lia | by rewrite Nat.add_0_r | done].
  - rewrite IH. split.
    + intros (k & -> & Hc & Hk & Hfirst). exists (S k).
      split; [lia |]. split; [done |]. split; [done |].
      intros [| k'] Hlt Hne; cbn.
      * intros [= ->]. apply Hhere. by rewrite Nat.add_0_r in Hne.
      * apply Hfirst; lia.
    + intros (k & -> & Hc & Hk & Hfirst).
      destruct k as [| k].
      * exfalso. apply Hhere. cbn in Hk. injection Hk as ->.
        by rewrite Nat.add_0_r in Hc.
      * exists k. split; [lia |]. split; [done |]. split; [done |].
        intros k' Hlt Hne. apply (Hfirst (S k')); lia.
Qed.

Lemma findConflict_None changed newValue i allSelects :
  findConflict changed newValue i allSelects = None ↔
    ∀ k, allSelects !! k = Some (Some newValue) → (i + k)%nat = changed.
Proof.
  revert i. induction allSelects as [| v l IH]; intros i; cbn.
  { split; [by intros _ k | done]. }
  case_decide as Hhere.
  - destruct Hhere as [Hne ->]. split; [done |].
    intros Hall. exfalso. apply Hne.
    rewrite <- (Hall 0%nat eq_refl). lia.
  - rewrite IH. split.
    + intros Hall [| k] Hk; cbn in Hk.
      * injection Hk as ->.
        destruct (decide (i = changed)) as [-> | ?]; [lia |].
        exfalso. by apply Hhere.
      * rewrite <- (Hall k Hk). lia.
    + intros Hall k Hk. rewrite <- (Hall (S k) Hk). lia.
Qed.

Lemma elem_of_collectUsed conflicting i allSelects usedValues x :
  x ∈ collectUsed conflicting i allSelects usedValues ↔
    x ∈ usedValues
    ∨ ∃ k, (i + k)%nat ≠ conflicting ∧ allSelects !! k = Some (Some x).
Proof.
  revert i usedValues.
  induction allSelects as [| v l IH]; intros i usedValues; cbn.
  { split; [by left | by intros [? | (k & _ & ?)]]. }
  rewrite IH. split.
  - intros [Hx | (k & Hk & Hl)].
    + destruct v as [p |]; [| by left].
      case_decide as Hi; [| by left].
      apply elem_of_union in Hx as [->%elem_of_singleton | Hx];
        [| by left].
      right. exists 0%nat. split; [by rewrite Nat.add_0_r | done].
    + right. exists (S k). split; [| done].
      by replace (i + S k)%nat with (S i + k)%nat by lia.
  - intros [Hx | (k & Hk & Hl)].
    + left. destruct v as [p |]; [| done].
      case_decide; [| done]. apply elem_of_union. by right.
    + destruct k as [| k]; cbn in Hl.
      * injection Hl as ->. left.
        rewrite decide_True by (by rewrite Nat.add_0_r in Hk).
        apply elem_of_union. left. by apply elem_of_singleton.
      * right. exists k. split; [| done].
        by replace (S i + k)%nat with (i + S k)%nat by lia.
Qed.

Lemma nextFree_spec fuel usedValues bestP :
  let r := nextFree fuel usedValues bestP in
  bestP ≤ r ≤ bestP + Z.of_nat fuel
  ∧ (∀ z, bestP ≤ z < r → z ∈ usedValues)
  ∧ ((r ∉ usedValues) ∨ r = bestP + Z.of_nat fuel).
Proof.
  revert bestP. induction fuel as [| fuel IH]; intros bestP; cbn.
  { split; [lia |]. split; [lia | right; lia]. }
  case_decide as Hused.
  - destruct (IH (bestP + 1)) as (Hrange & Hbelow & Hend).
    split; [lia |]. split.
    + intros z Hz. destruct (decide (z = bestP)) as [-> | ?]; [done |].
      apply Hbelow. lia.
    + destruct Hend as [? | ->]; [by left | right; lia].
  - split; [lia |]. split; [lia | by left].
Qed.

Lemma run_of_used_bounded (usedValues : gset Z) b n :
  (∀ z, b ≤ z < b + Z.of_nat n → z ∈ usedValues) →
  (n ≤ size usedValues)%nat.
Proof.
  intros Hrun.
  assert (list_to_set (seqZ b (Z.of_nat n)) ⊆ usedValues) as Hsub.
  { intros z Hz%elem_of_list_to_set%elem_of_seqZ. by apply Hrun. }
  apply subseteq_size in Hsub.
  rewrite size_list_to_set in Hsub by apply NoDup_seqZ.
  rewrite length_seqZ in Hsub. lia.
Qed.

(** One more test than [usedValues] has elements is enough: the loop
    stops at the least position from [bestP] on that is not used. *)
Lemma nextFree_free usedValues bestP :
  let r := nextFree (S (size usedValues)) usedValues bestP in
  bestP ≤ r ∧ (r ∉ usedValues) ∧ ∀ z, bestP ≤ z < r → z ∈ usedValues.
Proof.
  intros r.
  destruct (nextFree_spec (S (size usedValues)) usedValues bestP)
    as (Hrange & Hbelow & Hend).
  fold r in Hrange, Hbelow, Hend.
  split; [lia |]. split; [| done].
  destruct Hend as [? | Hr]; [done |]. exfalso.
  assert (S (size usedValues) ≤ size usedValues)%nat; [| lia].
  apply (run_of_used_bounded usedValues bestP).
  intros z Hz. apply Hbelow. lia.
Qed.

Lemma handlePositionChange_cases allSelects changed :
  ((∀ newValue, allSelects !! changed ≠ Some (Some newValue))
   ∧ handlePositionChange allSelects changed = allSelects)
  ∨ (∃ newValue,
       allSelects !! changed = Some (Some newValue)
       ∧ (∀ k, allSelects !! k = Some (Some newValue) → k = changed)
       ∧ handlePositionChange allSelects changed = allSelects)
  ∨ (∃ newValue c bestP,
       allSelects !! changed = Some (Some newValue)
       ∧ c ≠ changed
       ∧ allSelects !! c = Some (Some newValue)
       ∧ (∀ k, (k < c)%nat → k ≠ changed →
               allSelects !! k ≠ Some (Some newValue))
       ∧ 1 ≤ bestP
       ∧ ¬ heldBesides c allSelects bestP
       ∧ (∀ z, 1 ≤ z < bestP → heldBesides c allSelects z)
       ∧ handlePositionChange allSelects changed =
           <[c := if bestP <=? 10 then Some bestP else None]> allSelects).
Proof.
  unfold handlePositionChange.
  destruct (allSelects !! changed) as [[newValue |] |] eqn:Hchanged;
    [| by left ..].
  destruct (findConflict changed newValue 0 allSelects) as [c |] eqn:Hc.
  - right. right.
    apply findConflict_Some in Hc as (k & -> & Hne & Hk & Hfirst).
    change (0 + k)%nat with k in *.
    set (usedValues := collectUsed k 0 allSelects ∅).
    assert (∀ z, z ∈ usedValues ↔ heldBesides k allSelects z) as Hused.
    { intros z. unfold usedValues, heldBesides.
      rewrite elem_of_collectUsed. split; [| by right].
      intros [Hz | ?]; [| done]. by apply not_elem_of_empty in Hz. }
    destruct (nextFree_free usedValues 1) as (Hge & Hfree & Hbelow).
    exists newValue, k, (nextFree (S (size usedValues)) usedValues 1).
    split; [done |]. split; [done |]. split; [done |]. split; [done |].
    split; [exact Hge |]. split; [by rewrite <- Hused |].
    split; [| done]. intros z Hz. by apply Hused, Hbelow.
  - right. left. exists newValue. split; [done |]. split; [| done].
    intros k Hk. by apply (proj1 (findConflict_None _ _ _ _) Hc k).
Qed.

(** X16.  The handler keeps the positions apart.  When the selects held
    pairwise different positions before one of them was changed, they do
    so again after the handler has run. *)
Theorem handlePositionChange_keeps_distinct
    (before : list (option Z)) (changed : nat) (v : option Z) :
  distinctPositions before →
  distinctPositions (handlePositionChange (<[changed := v]> before) changed).
Proof.
  rewrite !distinctPositions_lookup. intros Hbefore.
  set (l := <[changed := v]> before).
  assert (∀ i x, i ≠ changed → l !! i = Some (Some x) →
                 before !! i = Some (Some x)) as Hother.
  { intros i x Hi. unfold l. by rewrite list_lookup_insert_ne. }
  destruct (handlePositionChange_cases l changed)
    as [[Hnone ->] | [(nv & Hchanged & Honly & ->)
       | (nv & c & bestP & Hchanged & Hc & Hconflict & _ & _ & Hfree
          & _ & ->)]].
  - intros i j x Hi Hj.
    destruct (decide (i = changed)) as [-> | Hic]; [by destruct (Hnone x) |].
    destruct (decide (j = changed)) as [-> | Hjc]; [by destruct (Hnone x) |].
    eauto.
  - intros i j x Hi Hj.
    destruct (decide (i = changed)) as [-> | Hic].
    { rewrite Hchanged in Hi. injection Hi as <-. symmetry. by apply Honly. }
    destruct (decide (j = changed)) as [-> | Hjc].
    { rewrite Hchanged in Hj. injection Hj as <-. by apply Honly. }
    eauto.
  - intros i j x Hi Hj.
    assert (∀ k, k ≠ c → l !! k = Some (Some x) →
              (<[c := if bestP <=? 10 then Some bestP else None]> l) !! c
                = Some (Some x) → False) as Hmoved.
    { intros k Hk Hlk Hlc.
      rewrite list_lookup_insert_eq in Hlc by by eapply lookup_lt_Some.
      destruct (bestP <=? 10); [| done]. injection Hlc as ->.
      apply Hfree. by exists k. }
    destruct (decide (i = c)) as [-> | Hic], (decide (j = c)) as [-> | Hjc];
      [done | | |].
    + exfalso. rewrite list_lookup_insert_ne in Hj by done. eauto.
    + exfalso. rewrite list_lookup_insert_ne in Hi by done. eauto.
    + rewrite list_lookup_insert_ne in Hi, Hj by done.
      assert (before !! c = Some (Some nv)) as Hbc by eauto.
      destruct (decide (i = changed)) as [-> | Hich].
      { rewrite Hchanged in Hi. injection Hi as <-.
        destruct (decide (j = changed)) as [-> | Hjch]; [done |].
        exfalso. apply Hjc. eauto. }
      destruct (decide (j = changed)) as [-> | Hjch].
      { rewrite Hchanged in Hj. injection Hj as <-.
        exfalso. apply Hic. eauto. }
      eauto.
Qed.

(** X17.  When the changed select is empty, or no other select holds its
    position, the handler changes nothing. *)
Theorem handlePositionChange_no_conflict
    (allSelects : list (option Z)) (changed : nat) :
  (∀ newValue, allSelects !! changed = Some (Some newValue) →
     ∀ k, allSelects !! k = Some (Some newValue) → k = changed) →
  handlePositionChange allSelects changed = allSelects.
Proof.
  intros Hfree.
  destruct (handlePositionChange_cases allSelects changed)
    as [[_ ->] | [(nv & _ & _ & ->)
       | (nv & c & bestP & Hchanged & Hc & Hconflict & _)]]; try done.
  by destruct (Hfree nv Hchanged c Hconflict).
Qed.

(** X18.  On a conflict the handler moves the first other select that holds
    the new position, and nothing else: that select gets the least
    position from 1 on that no other select holds, or the empty value
    when that position is past 10. *)
Theorem handlePositionChange_moves_conflict
    (allSelects : list (option Z)) (changed c : nat) (newValue : Z) :
  allSelects !! changed = Some (Some newValue) →
  c ≠ changed →
  allSelects !! c = Some (Some newValue) →
  (∀ k, (k < c)%nat → k ≠ changed →
        allSelects !! k ≠ Some (Some newValue)) →
  ∃ bestP,
    1 ≤ bestP
    ∧ ¬ heldBesides c allSelects bestP
    ∧ (∀ z, 1 ≤ z < bestP → heldBesides c allSelects z)
    ∧ handlePositionChange allSelects changed =
        <[c := if bestP <=? 10 then Some bestP else None]> allSelects.
Proof.
  intros Hchanged Hc Hconflict Hfirst.
  destruct (handlePositionChange_cases allSelects changed)
    as [[Hnone _] | [(nv & Hnv & Honly & _)
       | (nv & c' & bestP & Hnv & Hc' & Hconflict' & Hfirst' & Hrest)]].
  - by destruct (Hnone newValue).
  - rewrite Hchanged in Hnv. injection Hnv as <-.
    by destruct Hc, (Honly c Hconflict).
  - rewrite Hchanged in Hnv. injection Hnv as <-.
    assert (c' = c) as ->; [| by exists bestP].
    destruct (Nat.lt_trichotomy c' c) as [Hlt | [-> | Hlt]]; [| done |].
    + by destruct (Hfirst c' Hlt Hc').
    + by destruct (Hfirst' c Hlt Hc).
Qed.

(** ** The manual simulation *)

Section simulation_properties.
Context `{Collation} `{Roster}.


End simulation_properties.

(** ** The further properties at work on the samples *)

Lemma calculateDriverResult_only_adds_witness :
  finalWins (calculateDriverResult sampleNorris (Some 1)) = 7 + 1
  ∧ finalPodiums (calculateDriverResult sampleNorris (Some 1)) = 17 + 1.
Proof.
  split; [reflexivity |].
  apply (calculateDriverResult_only_adds sampleNorris (Some 1)).
  reflexivity.
Defined.

Lemma calculateDriverResult_worse_finish_witness :
  1 ≤ 2 ∧ 2 ≤ 5
  ∧ finalPoints (calculateDriverResult sampleNorris (Some 5)) ≤
      finalPoints (calculateDriverResult sampleNorris (Some 2)).
Proof.
  split; [lia |]. split; [lia |].
  apply (calculateDriverResult_worse_finish sampleNorris 2 5); lia.
Defined.

Lemma determineChampion_of_standings_witness :
  ∃ rest,
    @sortStandings codePointCollation sampleResults =
      calculateDriverResult sampleNorris (Some 2) :: rest
    ∧ Forall (ahead (calculateDriverResult sampleNorris (Some 2))) rest.
Proof.
  apply (@determineChampion_of_standings codePointCollation sampleResults).
  - vm_compute. reflexivity.
  - vm_compute. reflexivity.
Defined.

Lemma sortStandings_idempotent_witness :
  @sortStandings codePointCollation
    (@sortStandings codePointCollation sampleResults) =
  @sortStandings codePointCollation sampleResults.
Proof.
  apply (@sortStandings_idempotent codePointCollation
           codePointCollation_laws sampleResults).
Defined.

Lemma findWinningScenarios_returns_iff_witness :
  is_Some (@findWinningScenarios codePointCollation sampleRoster "norris").
Proof.
  apply (proj1 (@findWinningScenarios_returns_iff codePointCollation
                  sampleRoster "norris")).
  vm_compute. lia.
Defined.

Lemma findWinningScenarios_exactly_witness :
  ahead (calculateDriverResult sampleVerstappen (finishOf 2))
        (calculateDriverResult sampleNorris (finishOf 8))
  ∧ ahead (calculateDriverResult sampleVerstappen (finishOf 2))
          (calculateDriverResult samplePiastri (finishOf 3)).
Proof.
  assert (∃ l, @findWinningScenarios codePointCollation sampleRoster
                 "verstappen" = Some l
               ∧ {| norrisPos := 8; verstappenPos := 2; piastriPos := 3 |}
                 ∈ l) as (l & Hl & Hsc).
  { eexists. split; [vm_compute; reflexivity |].
    apply (bool_decide_unpack _). vm_compute. reflexivity. }
  apply (@findWinningScenarios_exactly codePointCollation sampleRoster
           sampleNorris sampleVerstappen samplePiastri
           eq_refl eq_refl eq_refl "verstappen" l _ Hl)
    in Hsc as (_ & _ & [(Hid & _) | [(_ & Hahead) | (Hid & _)]]).
  - discriminate Hid.
  - exact Hahead.
  - discriminate Hid.
Defined.

Lemma findWinningScenarios_rivals_worse_witness :
  ∃ l, @findWinningScenarios codePointCollation sampleRoster "verstappen"
         = Some l
       ∧ {| norrisPos := 9; verstappenPos := 2; piastriPos := 11 |} ∈ l.
Proof.
  eexists. split; [vm_compute; reflexivity |].
  eapply (@findWinningScenarios_rivals_worse codePointCollation
            sampleRoster sampleNorris sampleVerstappen samplePiastri
            eq_refl eq_refl eq_refl "verstappen" _
            {| norrisPos := 8; verstappenPos := 2; piastriPos := 3 |}).
  - vm_compute. reflexivity.
  - apply (bool_decide_unpack _). vm_compute. reflexivity.
  - unfold inSearchSpace. cbn. lia.
  - unfold scoringClash. cbn. lia.
  - cbn. lia.
  - cbn. lia.
  - cbn. lia.
  - intros Hid. discriminate Hid.
  - intros _. reflexivity.
  - intros Hid. discriminate Hid.
Defined.

Lemma findWinningScenarios_unknown_target_witness :
  @findWinningScenarios codePointCollation sampleRoster "russell" = Some [].
Proof.
  apply (@findWinningScenarios_unknown_target codePointCollation
           sampleRoster sampleNorris sampleVerstappen samplePiastri
           eq_refl eq_refl eq_refl "russell");
    intros Hid; discriminate Hid.
Defined.

Lemma findWinningScenarios_no_repeat_witness :
  ∃ l, @findWinningScenarios codePointCollation sampleRoster "piastri"
         = Some l
       ∧ l ≠ [] ∧ NoDup l ∧ (length l ≤ 1021)%nat.
Proof.
  eexists. split; [vm_compute; reflexivity |]. split; [done |].
  apply (@findWinningScenarios_no_repeat codePointCollation sampleRoster
           "piastri").
  vm_compute. reflexivity.
Defined.

Lemma findWinningScenarios_one_winner_witness :
  ∃ l, @findWinningScenarios codePointCollation sampleRoster "norris"
         = Some l
       ∧ {| norrisPos := 8; verstappenPos := 2; piastriPos := 3 |} ∉ l.
Proof.
  eexists. split; [vm_compute; reflexivity |].
  eapply (@findWinningScenarios_one_winner codePointCollation sampleRoster
            "verstappen" "norris").
  - vm_compute. reflexivity.
  - vm_compute. reflexivity.
  - discriminate.
  - apply (bool_decide_unpack _). vm_compute. reflexivity.
Defined.

Lemma groupScenarios_empty_iff_witness :
  groupScenarios "norris" sampleBucket ≠ [].
Proof.
  intros Hnil.
  apply (proj1 (groupScenarios_empty_iff "norris" sampleBucket)) in Hnil.
  discriminate Hnil.
Defined.

Lemma groupScenarios_unknown_id_witness :
  groupScenarios "russell" sampleBucket =
    [ {| position := "Pundefined";
         description := summarizeConstraints sampleBucket contenderIds |} ].
Proof.
  apply (groupScenarios_unknown_id "russell" sampleBucket).
  - apply (bool_decide_unpack _). vm_compute. reflexivity.
  - discriminate.
Defined.

Lemma groupScenarios_Permutation_witness :
  groupScenarios "norris"
    [ {| norrisPos := 1; verstappenPos := 5; piastriPos := 5 |};
      {| norrisPos := 1; verstappenPos := 4; piastriPos := 5 |};
      {| norrisPos := 1; verstappenPos := 4; piastriPos := 6 |} ] =
  groupScenarios "norris" sampleBucket.
Proof.
  apply (groupScenarios_Permutation "norris").
  apply Permutation_swap.
Defined.

Lemma groupScenarios_labels_witness :
  NoDup (position <$> groupScenarios "norris" sampleBucket)
  ∧ (length (groupScenarios "norris" sampleBucket) ≤ 11)%nat
  ∧ ∀ g, g ∈ groupScenarios "norris" sampleBucket →
         position g ∈ ["P1"; "P2"; "P3"; "P4"; "P5"; "P6"; "P7"; "P8";
                       "P9"; "P10"; "No Points"].
Proof.
  apply (groupScenarios_labels "norris" sampleBucket).
  - constructor.
  - apply (bool_decide_unpack _). vm_compute. reflexivity.
Defined.

Lemma handlePositionChange_keeps_distinct_witness :
  handlePositionChange (<[1%nat := Some 1]> [Some 1; Some 2; None]) 1 =
    [Some 2; Some 1; None]
  ∧ distinctPositions
      (handlePositionChange (<[1%nat := Some 1]> [Some 1; Some 2; None]) 1).
Proof.
  split; [vm_compute; reflexivity |].
  apply (handlePositionChange_keeps_distinct [Some 1; Some 2; None] 1
           (Some 1)).
  apply (bool_decide_unpack _). vm_compute. reflexivity.
Defined.

Lemma handlePositionChange_no_conflict_witness :
  handlePositionChange [Some 1; Some 2; None] 2 = [Some 1; Some 2; None].
Proof.
  apply (handlePositionChange_no_conflict [Some 1; Some 2; None] 2).
  intros newValue Hnone. discriminate Hnone.
Defined.

Lemma handlePositionChange_moves_conflict_witness :
  ∃ bestP,
    1 ≤ bestP
    ∧ ¬ heldBesides 0 [Some 1; Some 1; Some 2] bestP
    ∧ (∀ z, 1 ≤ z < bestP → heldBesides 0 [Some 1; Some 1; Some 2] z)
    ∧ handlePositionChange [Some 1; Some 1; Some 2] 1 =
        <[0%nat := if bestP <=? 10 then Some bestP else None]>
          [Some 1; Some 1; Some 2].
Proof.
  apply (handlePositionChange_moves_conflict [Some 1; Some 1; Some 2]
           1 0 1).
  - reflexivity.
  - discriminate.
  - reflexivity.
  - intros k Hk. lia.
Defined.

